(** * cloudformation-ecs-ssh-forwards: a shallow embedding of [index.js]

    The program resolves an ECS service of a CloudFormation stack to the
    container instances its tasks run on and prints one [ssh] command line
    with local port forwards per container instance, followed by a legend.

    The repository has the exported function twice: [index.js], with five
    parameters, and a documented copy with a sixth, [startingPort].  They
    differ in the initial value of [port] only; both are embedded.

    - The AWS clients ([cf], [ecs], [ec2]) are a black box: a record of
      query functions, each giving the [err] or the [data] of its callback.
    - A promise is a result, [error + value]; the body of a [.then]
      callback is a function of the resolved value, and a [throw] in it is
      the error of the result.
    - A [Map] is an association list in insertion order with unique keys;
      the [Set] [containerPorts] is a [gset]; only [has] is used on it.
    - A value that may be [undefined] is an [option].  A number is the
      integer it holds; [port++] is the increment of a double,
      [js_increment], exact between -2^53 and 2^53.
    - The printed output is the list of the lines given to [console.log]. *)

From Stdlib Require Import ZArith String Ascii DecimalString.
From stdpp Require Import base option list gmap strings.

Local Open Scope Z_scope.

(** ** Errors and promises *)

Inductive error : Type :=
  | Error (message : string)      (* [throw new Error(message)] *)
  | TypeError                     (* a property read from, or written to, [undefined] *)
  | ServiceError (code : string). (* [err] handed to the callback of an AWS call *)

Definition result (A : Type) : Type := error + A.

Definition ok {A} (a : A) : result A := inr a.
Definition throw {A} (e : error) : result A := inl e.

Definition bind {A B} (p : result A) (k : A -> result B) : result B :=
  match p with
  | inl e => inl e
  | inr a => k a
  end.

Notation "'let*' x ':=' p 'in' k" := (bind p (fun x => k))
  (at level 10, x pattern, p at level 100, k at level 200).

(** The error kinds of the specification, as the messages the code throws. *)
Definition ServiceNotFound : error := Error "Service not found".
Definition StackNotFound : error := Error "Stack not found".
Definition ClusterStackNotFound : error := Error "Cluster stack not found".
Definition ConfigMissing : error := Error "Cluster stack parameter not found".
Definition NoAddress : error := Error "No IPv6 address".

(** [Promise.all([a, b])]: resolved with both values, rejected with the
    rejection that settles first.  When both reject, which of the two is
    seen depends on the timing of the two queries; [a_first] fixes it. *)
Definition promise_all {A B} (a_first : bool) (a : result A) (b : result B)
  : result (A * B) :=
  match a, b with
  | inr x, inr y => ok (x, y)
  | inl e, inr _ => throw e
  | inr _, inl e => throw e
  | inl ea, inl eb => throw (if a_first then ea else eb)
  end.

(** ** JavaScript values *)

(** A string-valued variable that may be [undefined]. *)
Definition truthy (s : option string) : bool :=
  match s with
  | Some s => negb (String.eqb s "")
  | None => false
  end.

(** String concatenation with a value that may be [undefined]. *)
Definition js_string (s : option string) : string :=
  match s with
  | Some s => s
  | None => "undefined"
  end.

(** String concatenation with an integer number. *)
Definition number_string (n : Z) : string :=
  NilZero.string_of_int (Z.to_int n).

Definition tab : string := String (ascii_of_nat 9) EmptyString.

(** ** [Map]: insertion-ordered, [set] on a present key keeps its place *)

Section JsMap.
Context {K V : Type} `{EqDecision K}.

Fixpoint map_get (k : K) (m : list (K * V)) : option V :=
  match m with
  | [] => None
  | (k', v) :: m' => if decide (k = k') then Some v else map_get k m'
  end.

Fixpoint map_set (k : K) (v : V) (m : list (K * V)) : list (K * V) :=
  match m with
  | [] => [(k, v)]
  | (k', v') :: m' =>
      if decide (k = k') then (k, v) :: m' else (k', v') :: map_set k v m'
  end.

Definition map_has (k : K) (m : list (K * V)) : bool :=
  match map_get k m with
  | Some _ => true
  | None => false
  end.

Definition map_keys (m : list (K * V)) : list K := m.*1.
Definition map_values (m : list (K * V)) : list V := m.*2.
End JsMap.

(** ** Responses of the control plane *)

Record StackResource := {
  LogicalResourceId : string;
  PhysicalResourceId : string;
  ResourceType : string }.

Record StackParameter := {
  ParameterKey : string;
  ParameterValue : string }.

Record Stack := { Parameters : list StackParameter }.

Record NetworkBinding := {
  containerPort : Z;
  hostPort : Z }.

(** [networkBindings] is [None] when [Array.isArray] is false. *)
Record Container := { networkBindings : option (list NetworkBinding) }.

Record ContainerOverride := { name : string }.

(** [containerOverrides] is [task.overrides.containerOverrides]. *)
Record Task := {
  containerInstanceArn : string;
  containers : list Container;
  containerOverrides : list ContainerOverride }.

Record ContainerInstance := {
  ciArn : string;          (* [containerInstance.containerInstanceArn] *)
  ec2InstanceId : string }.

Record Ipv6AddressEntry := { Ipv6Address : string }.

Record NetworkInterface := { Ipv6Addresses : option (list Ipv6AddressEntry) }.

Record Instance := {
  InstanceId : string;
  PublicIpAddress : option string;
  NetworkInterfaces : list NetworkInterface }.

Record Reservation := { Instances : list Instance }.

(** The four clients ([cf], [ecs], [ec2]) and the timing of the two first
    queries. *)
Record ControlPlane := {
  describeStackResources : string -> option string -> result (list StackResource);
  describeStacks : string -> result (list Stack);
  listTasks : string -> string -> result (list string);
  describeTasks : string -> list string -> result (list Task);
  describeContainerInstances : list string -> string -> result (list ContainerInstance);
  describeInstances : list (option string) -> result (list Reservation);
  serviceSettlesFirst : bool }.

(** ** The aggregation structure *)

(** The value stored in [byHostPort]: [{ containerName, containerPort }]. *)
Record PortOwner := {
  containerName : string;
  ownerContainerPort : Z }.

(** [containerInstanceRequest]: [{ ports, byHostPort }], later given
    [instanceId], which is [undefined] until then.  The [ipAddress] written
    by the printing loop is read back at once; it is a local value there. *)
Record HostGroup := {
  ports : list (Z * Z);
  byHostPort : list (Z * PortOwner);
  instanceId : option string }.

Definition new_group : HostGroup :=
  {| ports := []; byHostPort := []; instanceId := None |}.

(** ** [getServiceName] *)

Fixpoint first_service (rs : list StackResource) : result string :=
  match rs with
  | [] => throw (Error "Service not found")
  | resource :: rs' =>
      if String.eqb (ResourceType resource) "AWS::ECS::Service"
      then ok (PhysicalResourceId resource)
      else first_service rs'
  end.

(** The [.then] callback of [getServiceName]. *)
Definition serviceNameOf (serviceName : option string)
    (resources : list StackResource) : result string :=
  if truthy serviceName && (Nat.eqb (length resources) 0)
  then throw (Error "Service not found")
  else if truthy serviceName then
    match resources with
    | r :: _ => ok (PhysicalResourceId r)
    | [] => throw TypeError
    end
  else first_service resources.

(** [params.LogicalResourceId], set only for a truthy [serviceName]. *)
Definition logicalResourceIdParam (serviceName : option string) : option string :=
  if truthy serviceName then serviceName else None.

Definition getServiceName (cp : ControlPlane) (serviceStackName : string)
    (serviceName : option string) : result string :=
  let* resources :=
    describeStackResources cp serviceStackName (logicalResourceIdParam serviceName) in
  serviceNameOf serviceName resources.

(** ** [getClusterStackName] *)

(** The loop with [break]: the value of the first parameter named
    ["ClusterStackName"], [undefined] when there is none. *)
Fixpoint clusterStackParam (ps : list StackParameter) : option string :=
  match ps with
  | [] => None
  | param :: ps' =>
      if String.eqb (ParameterKey param) "ClusterStackName"
      then Some (ParameterValue param)
      else clusterStackParam ps'
  end.

(** The [.then] callback of [getClusterStackName]. *)
Definition clusterStackNameOf (stacks : list Stack) : result string :=
  match stacks with
  | [] => throw (Error "Stack not found")
  | stack0 :: _ =>
      let clusterStackName := clusterStackParam (Parameters stack0) in
      if truthy clusterStackName
      then ok (js_string clusterStackName)
      else throw (Error "Cluster stack parameter not found")
  end.

Definition getClusterStackName (cp : ControlPlane) (serviceStackName : string)
  : result string :=
  let* data := describeStacks cp serviceStackName in
  clusterStackNameOf data.

(** ** [getClusterName] *)

Definition clusterNameOf (resources : list StackResource) : result string :=
  match resources with
  | [] => throw (Error "Cluster stack not found")
  | r :: _ => ok (PhysicalResourceId r)
  end.

Definition getClusterName (cp : ControlPlane) (clusterStackName : string)
  : result string :=
  let* resources := describeStackResources cp clusterStackName (Some "cluster"%string) in
  clusterNameOf resources.

(** ** The aggregation loops over [data.tasks] *)

(** The test on [containerPorts], a [Set] of numbers or [undefined]:
    [containerPorts && containerPorts.has(p) || !containerPorts]. *)
Definition retained (containerPorts : option (gset Z)) (binding : NetworkBinding)
  : bool :=
  match containerPorts with
  | Some s => bool_decide (containerPort binding ∈ s)
  | None => true
  end.

(** The body of that test: fetch or create the group of the container
    instance, write both maps, store the group. *)
Definition record_binding (arn containerName : string) (binding : NetworkBinding)
    (containerInstances : list (string * HostGroup)) : list (string * HostGroup) :=
  let containerInstanceRequest :=
    match map_get arn containerInstances with
    | Some g => g
    | None => new_group
    end in
  let containerInstanceRequest' :=
    {| ports := map_set (containerPort binding) (hostPort binding)
                  (ports containerInstanceRequest);
       byHostPort := map_set (hostPort binding)
                       {| containerName := containerName;
                          ownerContainerPort := containerPort binding |}
                       (byHostPort containerInstanceRequest);
       instanceId := instanceId containerInstanceRequest |} in
  map_set arn containerInstanceRequest' containerInstances.

(** The loop on [k]. *)
Fixpoint bindings_loop (containerPorts : option (gset Z)) (arn containerName : string)
    (bindings : list NetworkBinding) (containerInstances : list (string * HostGroup))
  : list (string * HostGroup) :=
  match bindings with
  | [] => containerInstances
  | binding :: bindings' =>
      bindings_loop containerPorts arn containerName bindings'
        (if retained containerPorts binding
         then record_binding arn containerName binding containerInstances
         else containerInstances)
  end.

(** The loop on [j], over the containers from index [j] on.  Reading
    [.name] of [containerOverrides[j]] fails when there is no such entry. *)
Fixpoint containers_loop (containerPorts : option (gset Z)) (task : Task) (j : nat)
    (cs : list Container) (containerInstances : list (string * HostGroup))
  : result (list (string * HostGroup)) :=
  match cs with
  | [] => ok containerInstances
  | container :: cs' =>
      match containerOverrides task !! j with
      | None => throw TypeError
      | Some override =>
          containers_loop containerPorts task (S j) cs'
            (match networkBindings container with
             | Some bindings =>
                 bindings_loop containerPorts (containerInstanceArn task)
                   (name override) bindings containerInstances
             | None => containerInstances
             end)
      end
  end.

(** The loop on [i]. *)
Fixpoint tasks_loop (containerPorts : option (gset Z)) (tasks : list Task)
    (containerInstances : list (string * HostGroup))
  : result (list (string * HostGroup)) :=
  match tasks with
  | [] => ok containerInstances
  | task :: tasks' =>
      let* containerInstances' :=
        containers_loop containerPorts task 0 (containers task) containerInstances in
      tasks_loop containerPorts tasks' containerInstances'
  end.

(** The aggregation of a [describeTasks] response, from the empty [Map]. *)
Definition aggregate (containerPorts : option (gset Z)) (tasks : list Task)
  : result (list (string * HostGroup)) :=
  tasks_loop containerPorts tasks [].

(** ** Attaching the EC2 instance ids *)

(** [containerInstances.get(arn).instanceId = id]; the write fails when
    [get] gives [undefined]. *)
Fixpoint set_instance_ids (cis : list ContainerInstance)
    (containerInstances : list (string * HostGroup))
  : result (list (string * HostGroup)) :=
  match cis with
  | [] => ok containerInstances
  | containerInstance :: cis' =>
      match map_get (ciArn containerInstance) containerInstances with
      | None => throw TypeError
      | Some g =>
          set_instance_ids cis'
            (map_set (ciArn containerInstance)
               {| ports := ports g; byHostPort := byHostPort g;
                  instanceId := Some (ec2InstanceId containerInstance) |}
               containerInstances)
      end
  end.

(** ** The addresses of the instances *)

(** The address of one instance: the value given to [instanceIps.set]. *)
Definition instance_address (ipv6 : bool) (instance : Instance)
  : result (option string) :=
  if ipv6 then
    match NetworkInterfaces instance with
    | [] => throw TypeError
    | interface0 :: _ =>
        match Ipv6Addresses interface0 with
        | Some (addr0 :: _) => ok (Some (Ipv6Address addr0))
        | Some [] | None => throw (Error "No IPv6 address")
        end
    end
  else ok (PublicIpAddress instance).

(** The loop on [j], over the instances of one reservation. *)
Fixpoint instances_loop (ipv6 : bool) (instances : list Instance)
    (instanceIps : list (string * option string))
  : result (list (string * option string)) :=
  match instances with
  | [] => ok instanceIps
  | instance :: instances' =>
      let* address := instance_address ipv6 instance in
      instances_loop ipv6 instances' (map_set (InstanceId instance) address instanceIps)
  end.

(** The loop on [i], over the reservations. *)
Fixpoint reservations_loop (ipv6 : bool) (reservations : list Reservation)
    (instanceIps : list (string * option string))
  : result (list (string * option string)) :=
  match reservations with
  | [] => ok instanceIps
  | r :: reservations' =>
      let* instanceIps' := instances_loop ipv6 (Instances r) instanceIps in
      reservations_loop ipv6 reservations' instanceIps'
  end.

(** [instanceIps.get(v.instanceId)]: [undefined] when the group has no
    [instanceId], when the id is no key, or when the stored value is. *)
Definition ip_address (instanceIps : list (string * option string)) (v : HostGroup)
  : option string :=
  match instanceId v with
  | Some id =>
      match map_get id instanceIps with
      | Some address => address
      | None => None
      end
  | None => None
  end.

(** ** Printing *)

(** The integers from [-2^53] to [2^53] are all held exactly by a double. *)
Definition safe_limit : Z := 9007199254740992.

(** [port++] on a double that holds the integer [n]: [n + 1] rounded to
    the nearest double, to the even significand on a tie.  The sum is
    exact from [-2^53] up to [2^53 - 1]; [2^53 + 1] rounds back to [2^53].
    From there to [2^54] the doubles are the even integers and [n + 1] is
    a tie between [n] and [n + 2]; beyond, [n] is the nearest. *)
Definition js_increment (n : Z) : Z :=
  if decide (- safe_limit ≤ n < safe_limit) then n + 1
  else if decide (Z.abs n < 2 * safe_limit)
       then (if Z.even (Z.abs n / 2) then n else n + 2)
       else n.

(** One step of [v.ports.forEach]: the state is [(str, port)]. *)
Definition forward_step (st : string * Z) (entry : Z * Z) : string * Z :=
  (st.1 +:+ " -L" +:+ number_string st.2 +:+ ":localhost:" +:+ number_string entry.2,
   js_increment st.2).

(** One step of [v.byHostPort.forEach]: the line given to [console.log]. *)
Definition legend_line (entry : Z * PortOwner) : string :=
  number_string entry.1 +:+ tab +:+ containerName entry.2 +:+ ":"
    +:+ number_string (ownerContainerPort entry.2).

(** One step of [containerInstances.forEach]: the state is the lines
    printed so far and [port]. *)
Definition print_group (instanceIps : list (string * option string))
    (st : list string * Z) (entry : string * HostGroup) : list string * Z :=
  let v := entry.2 in
  let ipAddress := ip_address instanceIps v in
  let line := fold_left forward_step (ports v) ("ssh", st.2) in
  let str := line.1 +:+ " ec2-user@" +:+ js_string ipAddress in
  (st.1 ++ str :: map legend_line (byHostPort v), line.2).

Definition print_all (port : Z) (instanceIps : list (string * option string))
    (containerInstances : list (string * HostGroup)) : list string :=
  (fold_left (print_group instanceIps) containerInstances ([], port)).1.

(** [startingPort || 49152], for a number or [undefined]. *)
Definition start_port (startingPort : option Z) : Z :=
  match startingPort with
  | Some p => if decide (p = 0) then 49152 else p
  | None => 49152
  end.

(** ** The exported function *)

(** The physical cluster name: from [clusterStackName] when it is truthy,
    from the stack parameter of the service stack otherwise. *)
Definition resolve_cluster (cp : ControlPlane) (serviceStackName : string)
    (clusterStackName : option string) : result string :=
  if truthy clusterStackName
  then getClusterName cp (js_string clusterStackName)
  else let* n := getClusterStackName cp serviceStackName in getClusterName cp n.

(** The chain of promises up to the aggregation with its instance ids:
    the two joins, [listTasks], [describeTasks], the loops, and
    [describeContainerInstances]. *)
Definition resolve_groups (cp : ControlPlane) (serviceStackName : string)
    (serviceName clusterStackName : option string)
    (containerPorts : option (gset Z)) : result (list (string * HostGroup)) :=
  let clusterName := resolve_cluster cp serviceStackName clusterStackName in
  let* v := promise_all (serviceSettlesFirst cp)
              (getServiceName cp serviceStackName serviceName) clusterName in
  let* taskList := listTasks cp v.1 v.2 in
  let* tasks := describeTasks cp v.2 taskList in
  let* containerInstances := aggregate containerPorts tasks in
  let* data := describeContainerInstances cp (map_keys containerInstances) v.2 in
  set_instance_ids data containerInstances.

(** The last callback up to its printing loop: [describeInstances] and the
    address map. *)
Definition resolve (cp : ControlPlane) (serviceStackName : string)
    (serviceName clusterStackName : option string)
    (containerPorts : option (gset Z)) (ipv6 : bool)
  : result (list (string * HostGroup) * list (string * option string)) :=
  let* containerInstances :=
    resolve_groups cp serviceStackName serviceName clusterStackName containerPorts in
  let* reservations :=
    describeInstances cp (instanceId <$> map_values containerInstances) in
  let* instanceIps := reservations_loop ipv6 reservations [] in
  ok (containerInstances, instanceIps).

(** The function exported by the documented module, with [startingPort];
    the result is the list of lines given to [console.log]. *)
Definition ssh_forwards (cp : ControlPlane) (serviceStackName : string)
    (serviceName clusterStackName : option string)
    (containerPorts : option (gset Z)) (ipv6 : bool) (startingPort : option Z)
  : result (list string) :=
  let* r := resolve cp serviceStackName serviceName clusterStackName containerPorts ipv6 in
  ok (print_all (start_port startingPort) r.2 r.1).

(** The function exported by [index.js]: five parameters, [port = 49152]. *)
Definition ssh_forwards_index (cp : ControlPlane) (serviceStackName : string)
    (serviceName clusterStackName : option string)
    (containerPorts : option (gset Z)) (ipv6 : bool) : result (list string) :=
  let* r := resolve cp serviceStackName serviceName clusterStackName containerPorts ipv6 in
  ok (print_all 49152 r.2 r.1).

(** ** The worked example of the specification *)

Module Example.

Definition serviceResource : StackResource :=
  {| LogicalResourceId := "service";
     PhysicalResourceId := "svc-phys";
     ResourceType := "AWS::ECS::Service" |}.

Definition clusterResource : StackResource :=
  {| LogicalResourceId := "cluster";
     PhysicalResourceId := "i-cluster-phys";
     ResourceType := "AWS::ECS::Cluster" |}.

(** The resources of a stack, filtered by logical id when one is given. *)
Definition stackResources (all : list StackResource) (logicalId : option string)
  : list StackResource :=
  match logicalId with
  | Some l => filter (fun r => LogicalResourceId r = l) all
  | None => all
  end.

Definition webTask : Task :=
  {| containerInstanceArn := "ci-1";
     containers :=
       [ {| networkBindings := Some [ {| containerPort := 80; hostPort := 32768 |} ] |} ];
     containerOverrides := [ {| name := "web" |} ] |}.

Definition instance1 (publicIp : option string) (nics : list NetworkInterface)
  : Instance :=
  {| InstanceId := "i-0001"; PublicIpAddress := publicIp; NetworkInterfaces := nics |}.

(** The environment, for any task list and any description of the
    instance ["i-0001"]. *)
Definition world (tasks : list Task) (inst : Instance) : ControlPlane :=
  {| describeStackResources stack logicalId :=
       if decide (stack = "svc-A") then ok (stackResources [serviceResource] logicalId)
       else if decide (stack = "cluster-A")
       then ok (stackResources [clusterResource] logicalId)
       else throw (ServiceError "ValidationError");
     describeStacks stack :=
       if decide (stack = "svc-A")
       then ok [ {| Parameters :=
                      [ {| ParameterKey := "ClusterStackName";
                           ParameterValue := "cluster-A" |} ] |} ]
       else throw (ServiceError "ValidationError");
     listTasks serviceName cluster :=
       if decide (serviceName = "svc-phys" ∧ cluster = "i-cluster-phys")
       then ok ((fun _ => "task-1"%string) <$> tasks)
       else throw (ServiceError "ClusterNotFoundException");
     describeTasks cluster arns :=
       if decide (cluster = "i-cluster-phys") then ok tasks
       else throw (ServiceError "ClusterNotFoundException");
     describeContainerInstances arns cluster :=
       ok ((fun arn => {| ciArn := arn; ec2InstanceId := "i-0001" |}) <$> arns);
     describeInstances ids :=
       ok (match ids with
           | [] => []
           | _ => [ {| Instances := (fun _ => inst) <$> ids |} ]
           end);
     serviceSettlesFirst := true |}.

Definition exampleWorld : ControlPlane :=
  world [webTask] (instance1 (Some "1.2.3.4"%string) []).

(** The group of container instance ["ci-1"] in that environment. *)
Definition group : HostGroup :=
  {| ports := [(80, 32768)];
     byHostPort := [(32768, {| containerName := "web"; ownerContainerPort := 80 |})];
     instanceId := Some "i-0001"%string |}.

Definition groups : list (string * HostGroup) := [("ci-1"%string, group)].

End Example.


(** * Vocabulary of the statements *)

(** One execution of the body guarded by the [containerPorts] test: the
    container instance, the container name read from the overrides, and the
    binding. *)
Record Write := {
  w_arn : string;
  w_name : string;
  w_binding : NetworkBinding }.

Definition apply_write (m : list (string * HostGroup)) (w : Write)
  : list (string * HostGroup) :=
  record_binding (w_arn w) (w_name w) (w_binding w) m.

Definition binding_writes (containerPorts : option (gset Z)) (arn n : string)
    (bindings : list NetworkBinding) : list Write :=
  (λ b, {| w_arn := arn; w_name := n; w_binding := b |})
    <$> filter (λ b, retained containerPorts b = true) bindings.

Definition container_writes (containerPorts : option (gset Z)) (arn : string)
    (co : Container * ContainerOverride) : list Write :=
  match networkBindings co.1 with
  | Some bindings => binding_writes containerPorts arn (name co.2) bindings
  | None => []
  end.

Definition task_writes (containerPorts : option (gset Z)) (task : Task) : list Write :=
  zip (containers task) (containerOverrides task)
    ≫= container_writes containerPorts (containerInstanceArn task).

(** The writes of a whole response, in the order of the three loops. *)
Definition writes (containerPorts : option (gset Z)) (tasks : list Task) : list Write :=
  tasks ≫= task_writes containerPorts.

(** A binding of the response that passes the [containerPorts] test, with
    the name the code pairs it with: binding [k] of container [j] of task
    [i], and entry [j] of the overrides of the same task. *)
Definition discovered (containerPorts : option (gset Z)) (tasks : list Task)
    (arn n : string) (b : NetworkBinding) : Prop :=
  ∃ (i j k : nat) task container override bindings,
    tasks !! i = Some task ∧
    containerInstanceArn task = arn ∧
    containers task !! j = Some container ∧
    containerOverrides task !! j = Some override ∧
    name override = n ∧
    networkBindings container = Some bindings ∧
    bindings !! k = Some b ∧
    retained containerPorts b = true.

(** Every task has an override entry for each of its containers. *)
Definition overrides_cover (tasks : list Task) : Prop :=
  Forall (λ task, (length (containers task) ≤ length (containerOverrides task))%nat)
    tasks.

(** What holds of the [Map] [m] after the writes [ws], from the empty map. *)
Record agg_inv (ws : list Write) (m : list (string * HostGroup)) : Prop := {
  inv_keys : NoDup (map_keys m);
  inv_group_keys : ∀ h g, map_get h m = Some g →
    NoDup (map_keys (ports g)) ∧ NoDup (map_keys (byHostPort g));
  inv_ports : ∀ h g cp hp,
    map_get h m = Some g → map_get cp (ports g) = Some hp →
    ∃ w, w ∈ ws ∧ w_arn w = h ∧
         containerPort (w_binding w) = cp ∧ hostPort (w_binding w) = hp;
  inv_owner : ∀ h g hp o,
    map_get h m = Some g → map_get hp (byHostPort g) = Some o →
    ∃ w, w ∈ ws ∧ w_arn w = h ∧ hostPort (w_binding w) = hp ∧
         containerPort (w_binding w) = ownerContainerPort o ∧
         w_name w = containerName o;
  inv_complete : ∀ w, w ∈ ws →
    ∃ g, map_get (w_arn w) m = Some g ∧
         is_Some (map_get (containerPort (w_binding w)) (ports g)) ∧
         is_Some (map_get (hostPort (w_binding w)) (byHostPort g)) }.

(** The [containerPorts] test as a proposition on the binding. *)
Definition allowed (containerPorts : option (gset Z)) (b : NetworkBinding) : Prop :=
  match containerPorts with
  | Some s => containerPort b ∈ s
  | None => True
  end.

(** A task response from which the bindings that fail the test are deleted. *)
Definition keep_allowed (containerPorts : option (gset Z)) (task : Task) : Task :=
  {| containerInstanceArn := containerInstanceArn task;
     containers :=
       (λ c, {| networkBindings :=
                  filter (λ b, retained containerPorts b = true) <$> networkBindings c |})
         <$> containers task;
     containerOverrides := containerOverrides task |}.

(** Within one container instance, retained bindings share their container
    port exactly when they share their host port. *)
Definition collision_free (containerPorts : option (gset Z)) (tasks : list Task)
  : Prop :=
  ∀ arn n b n' b',
    discovered containerPorts tasks arn n b →
    discovered containerPorts tasks arn n' b' →
    (containerPort b = containerPort b' ↔ hostPort b = hostPort b').

(** The number of entries of a [Map] that hold the value [v]. *)
Definition occurrences {K} (v : Z) (m : list (K * Z)) : nat :=
  length (filter (λ x, x = v) (map_values m)).

(** One [-L] clause. *)
Record Forward := {
  localPort : Z;
  remotePort : Z }.

Inductive Line : Type :=
  | SshLine (forwards : list Forward) (ipAddress : option string)
  | LegendLine (entry : Z * PortOwner).

(** The clauses of one group, from the value of [port] at its start. *)
Fixpoint forwards_from (port : Z) (ps : list (Z * Z)) : list Forward :=
  match ps with
  | [] => []
  | entry :: ps' =>
      {| localPort := port; remotePort := entry.2 |}
        :: forwards_from (js_increment port) ps'
  end.

(** The value of [port] after [n] increments. *)
Definition advance (n : nat) (port : Z) : Z := Nat.iter n js_increment port.

Fixpoint print_plan (port : Z) (instanceIps : list (string * option string))
    (containerInstances : list (string * HostGroup)) : list Line :=
  match containerInstances with
  | [] => []
  | entry :: rest =>
      SshLine (forwards_from port (ports entry.2)) (ip_address instanceIps entry.2)
        :: (LegendLine <$> byHostPort entry.2)
        ++ print_plan (advance (length (ports entry.2)) port) instanceIps rest
  end.

Definition forward_string (f : Forward) : string :=
  " -L" +:+ number_string (localPort f) +:+ ":localhost:" +:+ number_string (remotePort f).

Definition render (l : Line) : string :=
  match l with
  | SshLine forwards ipAddress =>
      "ssh" +:+ foldr String.append "" (forward_string <$> forwards)
        +:+ " ec2-user@" +:+ js_string ipAddress
  | LegendLine entry => legend_line entry
  end.

(** All [-L] clauses of the output, in the order they are printed. *)
Definition plan_forwards (plan : list Line) : list Forward :=
  plan ≫= λ l, match l with SshLine forwards _ => forwards | LegendLine _ => [] end.

(** The service resource type the scan looks for. *)
Definition is_service (r : StackResource) : Prop :=
  ResourceType r = "AWS::ECS::Service"%string.

(** The write of the IPv4 branch: [instanceIps.set(id, PublicIpAddress)]. *)
Definition set_public_ip (instanceIps : list (string * option string))
    (instance : Instance) : list (string * option string) :=
  map_set (InstanceId instance) (PublicIpAddress instance) instanceIps.

(** The first IPv6 address of the first network interface, when there is
    one. *)
Definition first_ipv6 (instance : Instance) : option string :=
  match NetworkInterfaces instance with
  | interface0 :: _ =>
      match Ipv6Addresses interface0 with
      | Some (addr0 :: _) => Some (Ipv6Address addr0)
      | Some [] | None => None
      end
  | [] => None
  end.

(** The write of the IPv6 branch: [instanceIps.set(id, addrs[0].Ipv6Address)]. *)
Definition set_ipv6 (instanceIps : list (string * option string))
    (instance : Instance) : list (string * option string) :=
  map_set (InstanceId instance) (first_ipv6 instance) instanceIps.

(** The keys and the two maps of each group, in order. *)
Definition bindings_of (m : list (string * HostGroup))
  : list (string * list (Z * Z) * list (Z * PortOwner)) :=
  (λ e, (e.1, ports e.2, byHostPort e.2)) <$> m.

(** ** The option parser of [cli.js] *)

(** [val.split(",")]: the pieces between the commas, at least one. *)
Fixpoint split_commas (val : string) : list string :=
  match val with
  | EmptyString => [EmptyString]
  | String c rest =>
      if Ascii.eqb c ","
      then EmptyString :: split_commas rest
      else match split_commas rest with
           | piece :: pieces => String c piece :: pieces
           | [] => [String c EmptyString]
           end
  end.

(** A string without comma. *)
Fixpoint comma_free (s : string) : bool :=
  match s with
  | EmptyString => true
  | String c rest => negb (Ascii.eqb c ",") && comma_free rest
  end.

Section ContainerPortsOption.
(** The numbers of JavaScript, up to the equality of [Set], and the
    conversion [Number] of a string. *)
Context {Num : Type} `{Countable Num}.
Variable Number : string → Num.

(** The callback of [--container-ports]: a [Set] with [Number] of every
    piece added in turn. *)
Definition containerPortsOption (val : string) : gset Num :=
  fold_left (λ s piece, s ∪ {[ Number piece ]}) (split_commas val) ∅.
End ContainerPortsOption.

(** ** More vocabulary *)

(** The elements of a list in the order of their first occurrence. *)
Fixpoint first_occurrences {A} `{EqDecision A} (l : list A) : list A :=
  match l with
  | [] => []
  | x :: l' => x :: filter (λ y, y ≠ x) (first_occurrences l')
  end.

(** The writes of one container instance. *)
Definition writes_of (arn : string) (ws : list Write) : list Write :=
  filter (λ w, w_arn w = arn) ws.

(** One step of the loop of [set_instance_ids] that does not fail. *)
Definition set_instance_id (m : list (string * HostGroup)) (ci : ContainerInstance)
  : list (string * HostGroup) :=
  match map_get (ciArn ci) m with
  | Some g =>
      map_set (ciArn ci)
        {| ports := ports g; byHostPort := byHostPort g;
           instanceId := Some (ec2InstanceId ci) |} m
  | None => m
  end.

(** Every query of the control plane answers with data. *)
Record answers (cp : ControlPlane) : Prop := {
  answers_resources : ∀ n l, ∃ d, describeStackResources cp n l = ok d;
  answers_stacks : ∀ n, ∃ d, describeStacks cp n = ok d;
  answers_listTasks : ∀ s c, ∃ d, listTasks cp s c = ok d;
  answers_tasks : ∀ c l, ∃ d, describeTasks cp c l = ok d;
  answers_containerInstances : ∀ l c, ∃ d, describeContainerInstances cp l c = ok d;
  answers_instances : ∀ l, ∃ d, describeInstances cp l = ok d }.

(** The errors the program raises itself. *)
Definition own_error (e : error) : Prop :=
  e = ServiceNotFound ∨ e = StackNotFound ∨ e = ConfigMissing ∨
  e = ClusterStackNotFound ∨ e = TypeError ∨ e = NoAddress.

(** * More environments *)

Module Collision.
(** Two copies of the task of the example on one container instance:
    the same container port, two host ports. *)
Definition copy (hp : Z) : Task :=
  {| containerInstanceArn := "ci-1";
     containers :=
       [ {| networkBindings := Some [ {| containerPort := 80; hostPort := hp |} ] |} ];
     containerOverrides := [ {| name := "web" |} ] |}.

Definition twoCopies : list Task := [copy 32768; copy 32769].

(** One container with two container ports bound to one host port. *)
Definition sharedHostPort : Task :=
  {| containerInstanceArn := "ci-1";
     containers :=
       [ {| networkBindings := Some [ {| containerPort := 80; hostPort := 32768 |};
                                      {| containerPort := 81; hostPort := 32768 |} ] |} ];
     containerOverrides := [ {| name := "web" |} ] |}.

(** A task whose second container has no override entry and no binding. *)
Definition missingOverride : Task :=
  {| containerInstanceArn := "ci-1";
     containers :=
       [ {| networkBindings := Some [ {| containerPort := 80; hostPort := 32768 |} ] |};
         {| networkBindings := None |} ];
     containerOverrides := [ {| name := "web" |} ] |}.

(** Tasks on two container instances, the first met again after the
    second. *)
Definition onHost (arn : string) (cp hp : Z) : Task :=
  {| containerInstanceArn := arn;
     containers :=
       [ {| networkBindings := Some [ {| containerPort := cp; hostPort := hp |} ] |} ];
     containerOverrides := [ {| name := "web" |} ] |}.

Definition threeTasks : list Task :=
  [onHost "ci-1" 80 32768; onHost "ci-2" 80 32770; onHost "ci-1" 443 32769].

(** The groups of [threeTasks] in the environment of the example, and the
    address map of its instance. *)
Definition threeGroups : list (string * HostGroup) :=
  [("ci-1"%string,
    {| ports := [(80, 32768); (443, 32769)];
       byHostPort :=
         [(32768, {| containerName := "web"; ownerContainerPort := 80 |});
          (32769, {| containerName := "web"; ownerContainerPort := 443 |})];
       instanceId := Some "i-0001"%string |});
   ("ci-2"%string,
    {| ports := [(80, 32770)];
       byHostPort :=
         [(32770, {| containerName := "web"; ownerContainerPort := 80 |})];
       instanceId := Some "i-0001"%string |})].

Definition threeWorld : ControlPlane :=
  Example.world threeTasks (Example.instance1 (Some "1.2.3.4"%string) []).

Definition threeIps : list (string * option string) :=
  [("i-0001"%string, Some "1.2.3.4"%string)].

(** A task with more override entries than containers. *)
Definition extraOverride : Task :=
  {| containerInstanceArn := "ci-1";
     containers :=
       [ {| networkBindings := Some [ {| containerPort := 80; hostPort := 32768 |} ] |} ];
     containerOverrides := [ {| name := "web" |}; {| name := "sidecar" |} ] |}.
End Collision.

(** A conversion for the pieces that are decimal numerals, with [None]
    for the others.  It is not [Number], which also reads other spellings;
    it stands in for it in an example, on a piece where the two agree. *)
Definition decimal_number (piece : string) : option Z :=
  Z.of_int <$> NilZero.int_of_string piece.

Module Ipv6.
(** The instance of the example with one network interface, with and
    without an IPv6 address. *)
Definition withAddress : Instance :=
  Example.instance1 None
    [ {| Ipv6Addresses := Some [ {| Ipv6Address := "2001:db8::1" |} ] |} ].

Definition withoutAddress : Instance :=
  Example.instance1 (Some "1.2.3.4"%string) [ {| Ipv6Addresses := Some [] |} ].
End Ipv6.

Module EmptyParameter.
(** A service stack whose "ClusterStackName" parameter is the empty
    string. *)
Definition emptyValue : StackParameter :=
  {| ParameterKey := "ClusterStackName"; ParameterValue := "" |}.

Definition stack : Stack :=
  {| Parameters := [ {| ParameterKey := "Environment"; ParameterValue := "prod" |};
                     emptyValue ] |}.

Definition world : ControlPlane :=
  {| describeStackResources stackName logicalId := ok [];
     describeStacks stackName := ok [stack];
     listTasks serviceName cluster := ok [];
     describeTasks cluster arns := ok [];
     describeContainerInstances arns cluster := ok [];
     describeInstances ids := ok [];
     serviceSettlesFirst := true |}.
End EmptyParameter.


(** * Facts about the [Map] model *)

Section JsMapFacts.
Context {K V : Type} `{EqDecision K}.
Implicit Types (k : K) (v : V) (m : list (K * V)).

Lemma map_get_set_eq k v m : map_get k (map_set k v m) = Some v.
Proof.
  induction m as [|[k' v'] m IH]; simpl.
  - by rewrite decide_True.
  - destruct (decide (k = k')) as [->|Hne]; simpl.
    + by rewrite decide_True.
    + by rewrite decide_False.
Qed.

Lemma map_get_set_ne k k' v m :
  k ≠ k' → map_get k' (map_set k v m) = map_get k' m.
Proof.
  intros Hne. induction m as [|[k0 v0] m IH]; simpl.
  - rewrite decide_False; [done|]. intros ->. by apply Hne.
  - destruct (decide (k = k0)) as [->|Hk]; simpl.
    + rewrite !decide_False; [done| |]; intros ->; by apply Hne.
    + destruct (decide (k' = k0)); [done|]. apply IH.
Qed.

Lemma map_get_set k k' v m :
  map_get k' (map_set k v m) = if decide (k = k') then Some v else map_get k' m.
Proof.
  destruct (decide (k = k')) as [->|Hne].
  - apply map_get_set_eq.
  - by apply map_get_set_ne.
Qed.

Lemma map_get_None k m : map_get k m = None ↔ k ∉ map_keys m.
Proof.
  unfold map_keys. induction m as [|[k' v'] m IH]; simpl.
  - split; [intros _; apply not_elem_of_nil | done].
  - rewrite not_elem_of_cons. destruct (decide (k = k')) as [->|Hne].
    + split; [done|]. intros [? _]. done.
    + rewrite IH. tauto.
Qed.

Lemma map_get_is_Some k m : is_Some (map_get k m) ↔ k ∈ map_keys m.
Proof.
  rewrite <-not_eq_None_Some, map_get_None.
  destruct (decide (k ∈ map_keys m)); tauto.
Qed.

Lemma map_get_elem_of k v m : map_get k m = Some v → (k, v) ∈ m.
Proof.
  induction m as [|[k' v'] m IH]; simpl; [done|].
  destruct (decide (k = k')) as [->|Hne].
  - intros [= ->]. apply elem_of_cons. by left.
  - intros Hget. apply elem_of_cons. right. by apply IH.
Qed.

Lemma elem_of_map_get k v m :
  NoDup (map_keys m) → (k, v) ∈ m → map_get k m = Some v.
Proof.
  unfold map_keys. induction m as [|[k' v'] m IH]; simpl.
  - intros _ Hin. by apply elem_of_nil in Hin.
  - rewrite NoDup_cons. intros [Hk' Hnd] Hin.
    apply elem_of_cons in Hin as [[= -> ->]|Hin].
    + by rewrite decide_True.
    + rewrite decide_False; [by apply IH|].
      intros ->. apply Hk'. apply list_elem_of_fmap. by exists (k', v).
Qed.

Lemma map_keys_set k v m :
  map_keys (map_set k v m)
  = if map_has k m then map_keys m else map_keys m ++ [k].
Proof.
  unfold map_keys, map_has. induction m as [|[k' v'] m IH]; csimpl; [done|].
  destruct (decide (k = k')) as [->|Hne]; csimpl; [done|].
  rewrite IH. by destruct (map_get k m).
Qed.

Lemma map_keys_set_NoDup k v m :
  NoDup (map_keys m) → NoDup (map_keys (map_set k v m)).
Proof.
  intros Hnd. rewrite map_keys_set. unfold map_has.
  destruct (map_get k m) eqn:Hget; [done|].
  apply NoDup_app. split; [done|]. split; [|apply NoDup_singleton].
  intros x Hx ->%list_elem_of_singleton.
  by apply map_get_None in Hget.
Qed.

Lemma filter_eq_absent `{EqDecision V} v (l : list V) :
  v ∉ l → filter (λ x, x = v) l = [].
Proof.
  induction l as [|x l IH]; [done|].
  rewrite not_elem_of_cons. intros [Hne Hl].
  rewrite filter_cons_False by congruence. by apply IH.
Qed.

(** A value held at one key only occurs once among the values. *)
Lemma map_values_once `{EqDecision V} k v m :
  NoDup (map_keys m) →
  map_get k m = Some v →
  (∀ k', map_get k' m = Some v → k' = k) →
  length (filter (λ x, x = v) (map_values m)) = 1%nat.
Proof.
  unfold map_keys, map_values. induction m as [|[k0 v0] m IH]; csimpl; [done|].
  rewrite NoDup_cons. intros [Hk0 Hnd] Hget Huniq.
  destruct (decide (k = k0)) as [->|Hne].
  - injection Hget as ->. rewrite filter_cons_True by done. simpl. f_equal.
    apply length_zero_iff_nil, filter_eq_absent.
    intros ([k' v'] & Hv & Hin)%list_elem_of_fmap. simpl in Hv. subst v'.
    assert (k' ≠ k0) as Hk'.
    { intros ->. apply Hk0, list_elem_of_fmap. by exists (k0, v). }
    apply Hk'. apply Huniq. rewrite decide_False by done.
    by apply elem_of_map_get.
  - assert (v0 ≠ v) as Hv0.
    { intros ->. apply Hne. symmetry. apply Huniq. by rewrite decide_True. }
    rewrite filter_cons_False by done. apply IH; [done..|].
    intros k' Hk'. apply Huniq.
    destruct (decide (k' = k0)) as [->|]; [|done].
    exfalso. apply Hk0. change (k0 ∈ map_keys m).
    apply map_get_is_Some. by eexists.
Qed.
End JsMapFacts.

(** * The aggregation loops as a sequence of writes *)

Section Loops.
Variable containerPorts : option (gset Z).

Lemma bindings_loop_writes arn n bindings m :
  bindings_loop containerPorts arn n bindings m
  = fold_left apply_write (binding_writes containerPorts arn n bindings) m.
Proof.
  unfold binding_writes. revert m.
  induction bindings as [|b bs IH]; intros m; [done|]. simpl.
  destruct (retained containerPorts b) eqn:Hb.
  - rewrite filter_cons_True by done. csimpl. apply IH.
  - rewrite filter_cons_False by congruence. apply IH.
Qed.

Lemma containers_loop_writes task j cs m m' :
  containers_loop containerPorts task j cs m = ok m' →
  m' = fold_left apply_write
         (zip cs (drop j (containerOverrides task))
            ≫= container_writes containerPorts (containerInstanceArn task)) m.
Proof.
  revert j m. induction cs as [|c cs IH]; intros j m; simpl.
  - by intros [= <-].
  - destruct (containerOverrides task !! j) as [ov|] eqn:Hov; [|done].
    intros Hloop. apply IH in Hloop. rewrite Hloop.
    rewrite (drop_S _ _ _ Hov). csimpl. rewrite fold_left_app. f_equal.
    unfold container_writes. simpl.
    destruct (networkBindings c); [|done].
    apply bindings_loop_writes.
Qed.

Lemma containers_loop_total task j cs m :
  (j + length cs ≤ length (containerOverrides task))%nat →
  ∃ m', containers_loop containerPorts task j cs m = ok m'.
Proof.
  revert j m. induction cs as [|c cs IH]; intros j m Hlen; simpl in *.
  - by eexists.
  - destruct (lookup_lt_is_Some_2 (containerOverrides task) j) as [ov ->]; [lia|].
    apply IH. lia.
Qed.

Lemma tasks_loop_writes tasks m m' :
  tasks_loop containerPorts tasks m = ok m' →
  m' = fold_left apply_write (writes containerPorts tasks) m.
Proof.
  unfold writes. revert m. induction tasks as [|t ts IH]; intros m; simpl.
  - by intros [= <-].
  - destruct (containers_loop containerPorts t 0 (containers t) m) as [e|m1] eqn:Hc;
      [done|]. simpl. intros Hloop.
    apply containers_loop_writes in Hc. apply IH in Hloop.
    rewrite Hloop, Hc. csimpl. by rewrite fold_left_app.
Qed.

Lemma tasks_loop_total tasks m :
  overrides_cover tasks → ∃ m', tasks_loop containerPorts tasks m = ok m'.
Proof.
  unfold overrides_cover. intros Hcover. revert m.
  induction Hcover as [|t ts Ht _ IH]; intros m; simpl.
  - by eexists.
  - destruct (containers_loop_total t 0 (containers t) m) as [m1 ->]; [simpl; lia|].
    simpl. apply IH.
Qed.

Lemma elem_of_writes tasks w :
  w ∈ writes containerPorts tasks
  ↔ discovered containerPorts tasks (w_arn w) (w_name w) (w_binding w).
Proof.
  unfold writes, task_writes, discovered. rewrite list_elem_of_bind. split.
  - intros (t & Hw & [i Hi]%list_elem_of_lookup).
    apply list_elem_of_bind in Hw as ([c0 ov0] & Hw & Hco).
    apply elem_of_lookup_zip_with in Hco as (j & c & ov & [= -> ->] & Hc & Hov).
    unfold container_writes in Hw. simpl in Hw.
    destruct (networkBindings c) as [bs|] eqn:Hbs; [|by apply elem_of_nil in Hw].
    apply list_elem_of_fmap in Hw as (b & -> & Hb).
    apply list_elem_of_filter in Hb as [Hret [k Hk]%list_elem_of_lookup].
    by exists i, j, k, t, c, ov, bs.
  - intros (i & j & k & t & c & ov & bs & Hi & Harn & Hc & Hov & Hn & Hbs & Hk & Hret).
    exists t. split; [|by eapply list_elem_of_lookup_2].
    apply list_elem_of_bind. exists (c, ov). split.
    + unfold container_writes. simpl. rewrite Hbs.
      apply list_elem_of_fmap. exists (w_binding w). split.
      * destruct w; simpl in *; by subst.
      * apply list_elem_of_filter. split; [done|]. by eapply list_elem_of_lookup_2.
    + by eapply (elem_of_lookup_zip_with_2 pair).
Qed.
End Loops.

(** * The invariant of the aggregation *)

Lemma agg_inv_nil : agg_inv [] [].
Proof.
  split; try done.
  - constructor.
  - intros w Hw. by apply elem_of_nil in Hw.
Qed.

Lemma apply_write_get m w h :
  map_get h (apply_write m w)
  = if decide (w_arn w = h) then
      let g := default new_group (map_get (w_arn w) m) in
      Some {| ports := map_set (containerPort (w_binding w)) (hostPort (w_binding w))
                         (ports g);
              byHostPort := map_set (hostPort (w_binding w))
                              {| containerName := w_name w;
                                 ownerContainerPort := containerPort (w_binding w) |}
                              (byHostPort g);
              instanceId := instanceId g |}
    else map_get h m.
Proof.
  unfold apply_write, record_binding. rewrite map_get_set.
  destruct (decide (w_arn w = h)); [|done].
  by destruct (map_get (w_arn w) m).
Qed.

Lemma agg_inv_step ws m w :
  agg_inv ws m → agg_inv (ws ++ [w]) (apply_write m w).
Proof.
  intros [Hkeys Hgk Hports Howner Hcomplete].
  set (g0 := default new_group (map_get (w_arn w) m)).
  assert (NoDup (map_keys (ports g0)) ∧ NoDup (map_keys (byHostPort g0))) as [Hp0 Ho0].
  { unfold g0. destruct (map_get (w_arn w) m) as [g|] eqn:Hg; simpl.
    - by eapply Hgk.
    - split; constructor. }
  assert (∀ cp hp, map_get cp (ports g0) = Some hp →
            ∃ w', w' ∈ ws ∧ w_arn w' = w_arn w ∧ containerPort (w_binding w') = cp ∧
                  hostPort (w_binding w') = hp) as Hports0.
  { unfold g0. destruct (map_get (w_arn w) m) as [g|] eqn:Hg; simpl; [|done].
    intros cp hp. by apply Hports. }
  assert (∀ hp o, map_get hp (byHostPort g0) = Some o →
            ∃ w', w' ∈ ws ∧ w_arn w' = w_arn w ∧ hostPort (w_binding w') = hp ∧
                  containerPort (w_binding w') = ownerContainerPort o ∧
                  w_name w' = containerName o) as Howner0.
  { unfold g0. destruct (map_get (w_arn w) m) as [g|] eqn:Hg; simpl; [|done].
    intros hp o. by apply Howner. }
  split.
  - by apply map_keys_set_NoDup.
  - intros h g. rewrite apply_write_get. destruct (decide (w_arn w = h)) as [<-|Hne].
    + intros [= <-]. simpl. split; by apply map_keys_set_NoDup.
    + apply Hgk.
  - intros h g cp hp. rewrite apply_write_get.
    destruct (decide (w_arn w = h)) as [<-|Hne].
    + intros [= <-]. simpl. rewrite map_get_set.
      destruct (decide (containerPort (w_binding w) = cp)) as [<-|Hcp].
      * intros [= <-]. exists w. split; [|done].
        apply elem_of_app. right. by apply list_elem_of_singleton.
      * intros (w' & Hw' & ?)%Hports0. exists w'. split; [|done].
        apply elem_of_app. by left.
    + intros Hg Hget. destruct (Hports h g cp hp Hg Hget) as (w' & Hw' & ?).
      exists w'. split; [|done]. apply elem_of_app. by left.
  - intros h g hp o. rewrite apply_write_get.
    destruct (decide (w_arn w = h)) as [<-|Hne].
    + intros [= <-]. simpl. rewrite map_get_set.
      destruct (decide (hostPort (w_binding w) = hp)) as [<-|Hhp].
      * intros [= <-]. exists w. split; [|done].
        apply elem_of_app. right. by apply list_elem_of_singleton.
      * intros (w' & Hw' & ?)%Howner0. exists w'. split; [|done].
        apply elem_of_app. by left.
    + intros Hg Hget. destruct (Howner h g hp o Hg Hget) as (w' & Hw' & ?).
      exists w'. split; [|done]. apply elem_of_app. by left.
  - intros w' [Hw'| ->%list_elem_of_singleton]%elem_of_app.
    + destruct (Hcomplete w' Hw') as (g & Hg & Hcp & Hhp).
      rewrite apply_write_get. destruct (decide (w_arn w = w_arn w')) as [Harn|Hne].
      * eexists. split; [done|]. simpl. unfold g0 in *. rewrite Harn, Hg. simpl.
        rewrite !map_get_set. split.
        -- by destruct (decide (containerPort (w_binding w) = containerPort (w_binding w'))).
        -- by destruct (decide (hostPort (w_binding w) = hostPort (w_binding w'))).
      * by exists g.
    + rewrite apply_write_get, decide_True by done.
      eexists. split; [done|]. simpl. by rewrite !map_get_set_eq.
Qed.

Lemma agg_inv_writes ws : agg_inv ws (fold_left apply_write ws []).
Proof.
  induction ws as [|w ws IH] using rev_ind.
  - apply agg_inv_nil.
  - rewrite fold_left_app. simpl. by apply agg_inv_step.
Qed.

Lemma aggregate_inv containerPorts tasks m :
  aggregate containerPorts tasks = ok m → agg_inv (writes containerPorts tasks) m.
Proof.
  intros ->%tasks_loop_writes. apply agg_inv_writes.
Qed.

Lemma aggregate_total containerPorts tasks :
  overrides_cover tasks → ∃ m, aggregate containerPorts tasks = ok m.
Proof. apply tasks_loop_total. Qed.

(** * The binding aggregator *)

Lemma retained_allowed containerPorts b :
  retained containerPorts b = true ↔ allowed containerPorts b.
Proof.
  unfold retained, allowed. destruct containerPorts as [s|]; [|done].
  apply bool_decide_eq_true.
Qed.

Lemma discovered_allowed containerPorts tasks arn n b :
  discovered containerPorts tasks arn n b
  ↔ discovered None tasks arn n b ∧ allowed containerPorts b.
Proof.
  unfold discovered. rewrite <-retained_allowed. split.
  - intros (i & j & k & t & c & ov & bs & ? & ? & ? & ? & ? & ? & ? & ?).
    split; [|done]. by exists i, j, k, t, c, ov, bs.
  - intros [(i & j & k & t & c & ov & bs & ? & ? & ? & ? & ? & ? & ? & ?) ?].
    by exists i, j, k, t, c, ov, bs.
Qed.

Lemma binding_eta (b : NetworkBinding) :
  {| containerPort := containerPort b; hostPort := hostPort b |} = b.
Proof. by destruct b. Qed.

Lemma bindings_loop_keep containerPorts arn n bindings m :
  bindings_loop containerPorts arn n bindings m
  = bindings_loop None arn n (filter (λ b, retained containerPorts b = true) bindings) m.
Proof.
  revert m. induction bindings as [|b bs IH]; intros m; [done|]. simpl.
  destruct (retained containerPorts b) eqn:Hb.
  - rewrite filter_cons_True by done. simpl. apply IH.
  - rewrite filter_cons_False by congruence. apply IH.
Qed.

Lemma containers_loop_keep containerPorts task j cs m :
  containers_loop containerPorts task j cs m
  = containers_loop None (keep_allowed containerPorts task) j
      ((λ c, {| networkBindings :=
                  filter (λ b, retained containerPorts b = true) <$> networkBindings c |})
         <$> cs) m.
Proof.
  revert j m. induction cs as [|c cs IH]; intros j m; [done|]. csimpl.
  destruct (containerOverrides task !! j) as [ov|]; [|done].
  rewrite IH. f_equal. destruct (networkBindings c); [|done]. simpl.
  apply bindings_loop_keep.
Qed.

Lemma aggregate_keep containerPorts tasks :
  aggregate containerPorts tasks
  = aggregate None (keep_allowed containerPorts <$> tasks).
Proof.
  unfold aggregate. generalize (@nil (string * HostGroup)).
  induction tasks as [|t ts IH]; intros m; [done|]. csimpl.
  rewrite containers_loop_keep. simpl.
  destruct (containers_loop None _ _ _ _); simpl; [done|]. apply IH.
Qed.

(** C3, as stated, fails: with two copies of a task on one container
    instance, both with container port 80, host port 32768 is a key of
    [byHostPort] and is no value of [ports], which holds 32769 only.  The
    run prints one forward and two legend lines. *)
Lemma legend_port_without_forward :
  ∃ g, aggregate None Collision.twoCopies = ok [("ci-1"%string, g)] ∧
       32768 ∈ map_keys (byHostPort g) ∧
       map_values (ports g) = [32769] ∧
       occurrences 32768 (ports g) ≠ 1%nat ∧
       ssh_forwards
         (Example.world Collision.twoCopies
            (Example.instance1 (Some "1.2.3.4"%string) []))
         "svc-A" None None None false None
       = ok [ "ssh -L49152:localhost:32769 ec2-user@1.2.3.4"%string;
              "32768" +:+ tab +:+ "web:80";
              "32769" +:+ tab +:+ "web:80" ].
Proof.
  eexists. split; [reflexivity|]. split; [|split; [reflexivity|split]].
  - simpl. apply elem_of_cons. by left.
  - vm_compute. discriminate.
  - reflexivity.
Qed.

(** The other collision: two container ports bound to one host port give
    that host port twice among the values of [ports]. *)
Lemma legend_port_forwarded_twice :
  ∃ g, aggregate None [Collision.sharedHostPort] = ok [("ci-1"%string, g)] ∧
       map_keys (byHostPort g) = [32768] ∧
       occurrences 32768 (ports g) = 2%nat.
Proof. eexists. split; [reflexivity|]. split; reflexivity. Qed.

(** C3, amended: when the retained bindings of each container instance
    share a container port exactly when they share a host port, every
    host port that is a key of the [byHostPort] map of a group of the
    aggregation is the value of exactly one entry of its [ports] map. *)
Theorem legend_ports_forwarded_once containerPorts tasks m :
  aggregate containerPorts tasks = ok m →
  collision_free containerPorts tasks →
  ∀ arn g hp,
    (arn, g) ∈ m →
    hp ∈ map_keys (byHostPort g) →
    occurrences hp (ports g) = 1%nat.
Proof.
  intros Hagg Hfree arn g hp Hin Hhp.
  destruct (aggregate_inv _ _ _ Hagg) as [Hkeys Hgk Hports Howner Hcomplete].
  apply (elem_of_map_get _ _ _ Hkeys) in Hin.
  apply map_get_is_Some in Hhp as [o Ho].
  destruct (Hgk _ _ Hin) as [Hnd _].
  destruct (Howner _ _ _ _ Hin Ho) as (w & Hw & Harn & Hwhp & Hwcp & _).
  destruct (Hcomplete w Hw) as (g' & Hg' & [hp' Hcp'] & _).
  rewrite Harn, Hin in Hg'. injection Hg' as <-.
  destruct (Hports _ _ _ _ Hin Hcp') as (w' & Hw' & Harn' & Hwcp' & Hwhp').
  apply elem_of_writes in Hw, Hw'. rewrite Harn in Hw. rewrite Harn' in Hw'.
  assert (hp' = hp) as ->.
  { rewrite <-Hwhp, <-Hwhp'. symmetry. by apply (Hfree _ _ _ _ _ Hw Hw'). }
  unfold occurrences. eapply map_values_once; [done..|].
  intros cp Hcp.
  destruct (Hports _ _ _ _ Hin Hcp) as (w'' & Hw'' & Harn'' & Hwcp'' & Hwhp'').
  apply elem_of_writes in Hw''. rewrite Harn'' in Hw''.
  rewrite <-Hwcp''. apply (Hfree _ _ _ _ _ Hw'' Hw). congruence.
Qed.

Lemma legend_ports_forwarded_once_witness :
  ∃ m, aggregate None [Example.webTask] = ok m ∧
       ∀ arn g hp, (arn, g) ∈ m → hp ∈ map_keys (byHostPort g) →
                   occurrences hp (ports g) = 1%nat.
Proof.
  eexists. split; [reflexivity|].
  apply (legend_ports_forwarded_once None [Example.webTask]); [reflexivity|].
  intros arn n b n' b' Hb Hb'.
  apply (elem_of_writes None [Example.webTask]
           {| w_arn := arn; w_name := n; w_binding := b |}) in Hb.
  apply (elem_of_writes None [Example.webTask]
           {| w_arn := arn; w_name := n'; w_binding := b' |}) in Hb'.
  vm_compute in Hb, Hb'.
  apply list_elem_of_singleton in Hb, Hb'.
  injection Hb as _ _ ->. injection Hb' as _ _ ->. done.
Defined.

(** C4: the aggregation with a [containerPorts] set is the aggregation,
    without a set, of the response from which the bindings with a
    container port outside the set are deleted.  In the result, a binding
    of the response that passes the test has an entry under its container
    port in [ports] and under its host port in [byHostPort], in the group
    of the container instance of its task; and every entry of either map
    is that of a binding of the response that passes the test.  With a
    set, a binding passes when its container port is a member; without a
    set every binding passes. *)
Theorem filter_decides_contribution containerPorts tasks m :
  aggregate containerPorts tasks = ok m →
  aggregate None (keep_allowed containerPorts <$> tasks) = ok m ∧
  (∀ arn n b,
     discovered None tasks arn n b → allowed containerPorts b →
     ∃ g, map_get arn m = Some g ∧
          containerPort b ∈ map_keys (ports g) ∧
          hostPort b ∈ map_keys (byHostPort g)) ∧
  (∀ arn g cp hp,
     map_get arn m = Some g → map_get cp (ports g) = Some hp →
     ∃ n b, discovered None tasks arn n b ∧ allowed containerPorts b ∧
            containerPort b = cp ∧ hostPort b = hp) ∧
  (∀ arn g hp o,
     map_get arn m = Some g → map_get hp (byHostPort g) = Some o →
     ∃ n b, discovered None tasks arn n b ∧ allowed containerPorts b ∧
            containerPort b = ownerContainerPort o ∧ hostPort b = hp) ∧
  (∀ s b, containerPorts = Some s →
           (allowed containerPorts b ↔ containerPort b ∈ s)) ∧
  (∀ b, containerPorts = None → allowed containerPorts b).
Proof.
  intros Hagg.
  destruct (aggregate_inv _ _ _ Hagg) as [Hkeys Hgk Hports Howner Hcomplete].
  split; [by rewrite <-aggregate_keep|]. split; [|split; [|split; [|split]]].
  - intros arn n b Hb Hallowed.
    assert (discovered containerPorts tasks arn n b) as Hd
      by by apply discovered_allowed.
    apply (elem_of_writes _ _ {| w_arn := arn; w_name := n; w_binding := b |}) in Hd.
    destruct (Hcomplete _ Hd) as (g & Hg & Hcp & Hhp). simpl in *.
    exists g. split; [done|]. split; by apply map_get_is_Some.
  - intros arn g cp hp Hg Hcp.
    destruct (Hports _ _ _ _ Hg Hcp) as (w & Hw & <- & <- & <-).
    apply elem_of_writes, discovered_allowed in Hw as [Hw Hallowed].
    by exists (w_name w), (w_binding w).
  - intros arn g hp o Hg Ho.
    destruct (Howner _ _ _ _ Hg Ho) as (w & Hw & <- & <- & <- & _).
    apply elem_of_writes, discovered_allowed in Hw as [Hw Hallowed].
    by exists (w_name w), (w_binding w).
  - by intros s b ->.
  - by intros b ->.
Qed.

Lemma filter_decides_contribution_witness :
  ∃ m, aggregate (Some {[ 80 ]}) [Example.webTask] = ok m ∧
       aggregate None (keep_allowed (Some {[ 80 ]}) <$> [Example.webTask]) = ok m ∧
       ∃ g, map_get "ci-1"%string m = Some g ∧
            map_get 80 (ports g) = Some 32768.
Proof.
  eexists. split; [reflexivity|].
  destruct (filter_decides_contribution (Some {[ 80 ]}) [Example.webTask] _ eq_refl)
    as (Hkeep & _).
  split; [exact Hkeep|]. eexists. split; reflexivity.
Defined.

(** C9: the name stored in [byHostPort] is that of the override entry at
    the index of the container.  Every entry of a [byHostPort] map is that
    of a retained binding [k] of a container [j] of a task, with the name
    of entry [j] of the overrides of that task; and a retained binding
    whose host port no other retained binding of its container instance
    uses with another name or container port is stored with that name.
    Nothing compares the two lists: the aggregation succeeds whenever
    each task has an override entry at the index of each container. *)
Theorem names_paired_by_index containerPorts tasks :
  (overrides_cover tasks → ∃ m, aggregate containerPorts tasks = ok m) ∧
  ∀ m, aggregate containerPorts tasks = ok m →
    (∀ arn g hp o,
       map_get arn m = Some g → map_get hp (byHostPort g) = Some o →
       discovered containerPorts tasks arn (containerName o)
         {| containerPort := ownerContainerPort o; hostPort := hp |}) ∧
    (∀ arn n b,
       discovered containerPorts tasks arn n b →
       (∀ n' b', discovered containerPorts tasks arn n' b' →
                 hostPort b' = hostPort b →
                 n' = n ∧ containerPort b' = containerPort b) →
       ∃ g, map_get arn m = Some g ∧
            map_get (hostPort b) (byHostPort g)
            = Some {| containerName := n; ownerContainerPort := containerPort b |}).
Proof.
  split; [apply aggregate_total|]. intros m Hagg.
  destruct (aggregate_inv _ _ _ Hagg) as [Hkeys Hgk Hports Howner Hcomplete].
  split.
  - intros arn g hp o Hg Ho.
    destruct (Howner _ _ _ _ Hg Ho) as (w & Hw & <- & <- & <- & <-).
    rewrite binding_eta. by apply elem_of_writes.
  - intros arn n b Hb Hsame.
    pose proof Hb as Hw.
    apply (elem_of_writes _ _ {| w_arn := arn; w_name := n; w_binding := b |}) in Hw.
    destruct (Hcomplete _ Hw) as (g & Hg & _ & [o Ho]). simpl in *.
    exists g. split; [done|]. rewrite Ho. f_equal.
    destruct (Howner _ _ _ _ Hg Ho) as (w' & Hw' & Harn & Hhp & Hcp & Hn).
    apply elem_of_writes in Hw'. rewrite Harn in Hw'.
    destruct (Hsame _ _ Hw' Hhp) as [Hn' Hcp'].
    destruct o as [on ocp]. simpl in *. congruence.
Qed.

Lemma names_paired_by_index_witness :
  ∃ m g, aggregate None [Collision.extraOverride] = ok m ∧
         map_get "ci-1"%string m = Some g ∧
         map_get 32768 (byHostPort g)
         = Some {| containerName := "web"; ownerContainerPort := 80 |}.
Proof.
  destruct (names_paired_by_index None [Collision.extraOverride]) as [Htotal Hpaired].
  destruct Htotal as [m Hm].
  { repeat constructor. }
  exists m.
  destruct (Hpaired m Hm) as [_ Hstored].
  destruct (Hstored "ci-1"%string "web"%string {| containerPort := 80; hostPort := 32768 |})
    as (g & Hg & Ho).
  - exists 0%nat, 0%nat, 0%nat. by repeat eexists.
  - intros n' b' Hb' _.
    apply (elem_of_writes None [Collision.extraOverride]
             {| w_arn := "ci-1"; w_name := n'; w_binding := b' |}) in Hb'.
    vm_compute in Hb'. apply list_elem_of_singleton in Hb'.
    by injection Hb' as -> ->.
  - by exists g.
Defined.

(** * The printed lines *)

Lemma append_assoc (s1 s2 s3 : string) : (s1 +:+ s2) +:+ s3 = s1 +:+ s2 +:+ s3.
Proof.
  induction s1 as [|c s1 IH]; [done|].
  change (String c ((s1 +:+ s2) +:+ s3) = String c (s1 +:+ s2 +:+ s3)).
  by rewrite IH.
Qed.

Lemma append_empty_r (s : string) : s +:+ "" = s.
Proof.
  induction s as [|c s IH]; [done|].
  change (String c (s +:+ "") = String c s). by rewrite IH.
Qed.

Lemma js_increment_safe n :
  - safe_limit ≤ n < safe_limit → js_increment n = n + 1.
Proof. intros Hn. unfold js_increment. by rewrite decide_True. Qed.

Lemma advance_succ n port : advance n (js_increment port) = advance (S n) port.
Proof.
  unfold advance. induction n as [|n IH]; [done|]. simpl in *. by rewrite IH.
Qed.

Lemma advance_add a b port : advance (a + b) port = advance b (advance a port).
Proof.
  revert port. induction a as [|a IH]; intros port; [done|].
  change (S a + b)%nat with (S (a + b)). by rewrite <-!advance_succ, IH.
Qed.

(** Below [2^53] the counter counts. *)
Lemma advance_safe n port :
  - safe_limit ≤ port → port + Z.of_nat n ≤ safe_limit →
  advance n port = port + Z.of_nat n.
Proof.
  revert port. induction n as [|n IH]; intros port Hlow Hhigh.
  - unfold advance. simpl. lia.
  - rewrite <-advance_succ, js_increment_safe by lia. rewrite IH; lia.
Qed.

Lemma forward_steps ps str port :
  fold_left forward_step ps (str, port)
  = (str +:+ foldr String.append "" (forward_string <$> forwards_from port ps),
     advance (length ps) port).
Proof.
  revert str port. induction ps as [|e ps IH]; intros str port; csimpl.
  - by rewrite append_empty_r.
  - unfold forward_step at 2. simpl. rewrite IH. f_equal.
    + unfold forward_string at 2. simpl. by rewrite !append_assoc.
    + apply advance_succ.
Qed.

Lemma print_groups instanceIps containerInstances out port :
  fold_left (print_group instanceIps) containerInstances (out, port)
  = (out ++ (render <$> print_plan port instanceIps containerInstances),
     advance (length (containerInstances ≫= λ e, ports e.2)) port).
Proof.
  revert out port. induction containerInstances as [|e cis IH]; intros out port; csimpl.
  - by rewrite app_nil_r.
  - unfold print_group at 2. simpl. rewrite forward_steps. simpl. rewrite IH.
    f_equal.
    + rewrite append_assoc, <-app_assoc, fmap_app, <-list_fmap_compose. done.
    + by rewrite length_app, advance_add.
Qed.

Lemma print_all_plan port instanceIps containerInstances :
  print_all port instanceIps containerInstances
  = render <$> print_plan port instanceIps containerInstances.
Proof. unfold print_all. by rewrite print_groups. Qed.

Lemma forwards_from_lookup port ps i f :
  forwards_from port ps !! i = Some f → localPort f = advance i port.
Proof.
  revert port i. induction ps as [|e ps IH]; intros port i; simpl; [done|].
  destruct i as [|i]; simpl.
  - by intros [= <-].
  - intros Hf%IH. by rewrite Hf, advance_succ.
Qed.

Lemma length_forwards_from port ps : length (forwards_from port ps) = length ps.
Proof. revert port. induction ps as [|e ps IH]; intros port; simpl; [done|]. by rewrite IH. Qed.

Lemma plan_forwards_cons port instanceIps entry rest :
  plan_forwards (print_plan port instanceIps (entry :: rest))
  = forwards_from port (ports entry.2)
    ++ plan_forwards
         (print_plan (advance (length (ports entry.2)) port) instanceIps rest).
Proof.
  unfold plan_forwards. csimpl. rewrite bind_app. f_equal.
  rewrite <-(app_nil_l (_ ≫= _)) at 1. f_equal.
  induction (byHostPort entry.2) as [|x l IH]; [done|]. csimpl. exact IH.
Qed.

Lemma length_plan_forwards port instanceIps containerInstances :
  length (plan_forwards (print_plan port instanceIps containerInstances))
  = length (containerInstances ≫= λ e, ports e.2).
Proof.
  revert port. induction containerInstances as [|e cis IH]; intros port; [done|].
  rewrite plan_forwards_cons. csimpl.
  by rewrite !length_app, length_forwards_from, IH.
Qed.

(** The local port of clause [i] of the output is the starting port after
    [i] increments. *)
Lemma plan_forwards_lookup port instanceIps containerInstances i f :
  plan_forwards (print_plan port instanceIps containerInstances) !! i = Some f →
  localPort f = advance i port.
Proof.
  revert port i. induction containerInstances as [|e cis IH]; intros port i.
  - done.
  - rewrite plan_forwards_cons. intros Hf.
    apply lookup_app_Some in Hf as [Hf|[Hlen Hf]].
    + by apply forwards_from_lookup in Hf.
    + apply IH in Hf. rewrite length_forwards_from in *.
      rewrite Hf, <-advance_add. f_equal. lia.
Qed.

Lemma plan_group_line port instanceIps containerInstances arn v :
  (arn, v) ∈ containerInstances →
  ∃ port', SshLine (forwards_from port' (ports v)) (ip_address instanceIps v)
           ∈ print_plan port instanceIps containerInstances.
Proof.
  revert port. induction containerInstances as [|e cis IH]; intros port Hin.
  - by apply elem_of_nil in Hin.
  - apply elem_of_cons in Hin as [<-|Hin].
    + exists port. simpl. apply elem_of_cons. by left.
    + destruct (IH (advance (length (ports e.2)) port) Hin) as [port' Hport'].
      exists port'. simpl. apply elem_of_cons. right. apply elem_of_app. by right.
Qed.

(** * The resolvers *)

Lemma first_service_found pre r post :
  Forall (λ x, ¬ is_service x) pre → is_service r →
  first_service (pre ++ r :: post) = ok (PhysicalResourceId r).
Proof.
  unfold is_service. intros Hpre Hr. induction Hpre as [|x pre Hx _ IH]; simpl.
  - by rewrite Hr.
  - apply String.eqb_neq in Hx. by rewrite Hx.
Qed.

Lemma first_service_none rs :
  Forall (λ x, ¬ is_service x) rs → first_service rs = throw ServiceNotFound.
Proof.
  unfold is_service. induction 1 as [|x rs Hx _ IH]; simpl; [done|].
  apply String.eqb_neq in Hx. by rewrite Hx.
Qed.

(** C8: [getServiceName], given the response [resources] of the resource
    query.  With a logical service name (a non-empty string, which the
    query is then filtered by) it fails with "Service not found" on an
    empty response and returns the physical id of the first resource
    otherwise, hence of the only one.  Without one (and for the empty
    string, which the code treats alike) it returns the physical id of the
    first resource of type "AWS::ECS::Service", and fails with "Service
    not found" when no resource has that type. *)
Theorem getServiceName_cases cp serviceStackName serviceName resources :
  describeStackResources cp serviceStackName (logicalResourceIdParam serviceName)
  = ok resources →
  (truthy serviceName = true →
     logicalResourceIdParam serviceName = serviceName ∧
     (resources = [] →
        getServiceName cp serviceStackName serviceName = throw ServiceNotFound) ∧
     (∀ r rest, resources = r :: rest →
        getServiceName cp serviceStackName serviceName = ok (PhysicalResourceId r))) ∧
  (truthy serviceName = false →
     logicalResourceIdParam serviceName = None ∧
     (∀ pre r post, resources = pre ++ r :: post →
        Forall (λ x, ¬ is_service x) pre → is_service r →
        getServiceName cp serviceStackName serviceName = ok (PhysicalResourceId r)) ∧
     (Forall (λ x, ¬ is_service x) resources →
        getServiceName cp serviceStackName serviceName = throw ServiceNotFound)).
Proof.
  intros Hq. unfold getServiceName. rewrite Hq. simpl.
  unfold serviceNameOf, logicalResourceIdParam. split; intros ->; simpl.
  - split; [done|]. split; [by intros ->|]. by intros r rest ->.
  - split; [done|]. split.
    + intros pre r post ->. apply first_service_found.
    + apply first_service_none.
Qed.

Lemma getServiceName_cases_witness :
  getServiceName Example.exampleWorld "svc-A" (Some "service"%string) = ok "svc-phys"%string ∧
  getServiceName Example.exampleWorld "svc-A" (Some "other"%string) = throw ServiceNotFound ∧
  getServiceName Example.exampleWorld "svc-A" None = ok "svc-phys"%string ∧
  getServiceName Example.exampleWorld "cluster-A" None = throw ServiceNotFound.
Proof.
  split; [|split; [|split]].
  - destruct (getServiceName_cases Example.exampleWorld "svc-A" (Some "service"%string)
                [Example.serviceResource] eq_refl) as [Hgiven _].
    destruct (Hgiven eq_refl) as (_ & _ & Hfirst).
    exact (Hfirst Example.serviceResource [] eq_refl).
  - destruct (getServiceName_cases Example.exampleWorld "svc-A" (Some "other"%string)
                [] eq_refl) as [Hgiven _].
    destruct (Hgiven eq_refl) as (_ & Hnone & _).
    exact (Hnone eq_refl).
  - destruct (getServiceName_cases Example.exampleWorld "svc-A" None
                [Example.serviceResource] eq_refl) as [_ Hscan].
    destruct (Hscan eq_refl) as (_ & Hfirst & _).
    exact (Hfirst [] Example.serviceResource [] eq_refl (Forall_nil_2 _) eq_refl).
  - destruct (getServiceName_cases Example.exampleWorld "cluster-A" None
                [Example.clusterResource] eq_refl) as [_ Hscan].
    destruct (Hscan eq_refl) as (_ & _ & Hnone).
    apply Hnone. constructor; [|constructor]. unfold is_service. simpl. discriminate.
Defined.

Lemma clusterStackParam_absent ps :
  Forall (λ p, ParameterKey p ≠ "ClusterStackName"%string) ps →
  clusterStackParam ps = None.
Proof.
  induction 1 as [|p ps Hp _ IH]; simpl; [done|].
  apply String.eqb_neq in Hp. by rewrite Hp.
Qed.

Lemma clusterStackParam_empty ps :
  Forall (λ p, ParameterKey p = "ClusterStackName"%string → ParameterValue p = ""%string)
    ps →
  truthy (clusterStackParam ps) = false.
Proof.
  induction 1 as [|p ps Hp _ IH]; simpl; [done|].
  destruct (String.eqb_spec (ParameterKey p) "ClusterStackName") as [Hk|Hk]; [|done].
  simpl. by rewrite (Hp Hk).
Qed.

(** C10: [getClusterStackName], given a response with a stack.  If a
    parameter of the stack has the key "ClusterStackName" and the empty
    string as its value (as has every parameter with that key: keys are
    not repeated), the result is the error "Cluster stack parameter not
    found", the result for a stack without such a parameter; and the
    empty string is never returned. *)
Theorem getClusterStackName_empty_value cp serviceStackName :
  (∀ stack rest p,
     describeStacks cp serviceStackName = ok (stack :: rest) →
     p ∈ Parameters stack →
     ParameterKey p = "ClusterStackName"%string →
     ParameterValue p = ""%string →
     (∀ q, q ∈ Parameters stack → ParameterKey q = ParameterKey p →
           ParameterValue q = ParameterValue p) →
     getClusterStackName cp serviceStackName = throw ConfigMissing) ∧
  (∀ stack rest,
     describeStacks cp serviceStackName = ok (stack :: rest) →
     Forall (λ p, ParameterKey p ≠ "ClusterStackName"%string) (Parameters stack) →
     getClusterStackName cp serviceStackName = throw ConfigMissing) ∧
  getClusterStackName cp serviceStackName ≠ ok ""%string.
Proof.
  unfold getClusterStackName. split; [|split].
  - intros stack rest p -> Hp Hkey Hval Hsame. simpl.
    rewrite clusterStackParam_empty; [done|].
    apply Forall_forall. intros q Hq Hqk. rewrite <-Hval. apply Hsame; congruence.
  - intros stack rest -> Habsent. simpl. by rewrite clusterStackParam_absent.
  - destruct (describeStacks cp serviceStackName) as [e|[|stack rest]]; simpl; [done..|].
    destruct (clusterStackParam (Parameters stack)) as [s|]; simpl; [|done].
    unfold ok, throw. destruct (String.eqb_spec s ""); simpl; [done|].
    by intros [= ->].
Qed.

Lemma getClusterStackName_empty_value_witness :
  getClusterStackName EmptyParameter.world "svc-A" = throw ConfigMissing ∧
  resolve_cluster EmptyParameter.world "svc-A" None = throw ConfigMissing.
Proof.
  assert (getClusterStackName EmptyParameter.world "svc-A" = throw ConfigMissing) as H.
  { destruct (getClusterStackName_empty_value EmptyParameter.world "svc-A")
      as (Hempty & _ & _).
    apply (Hempty EmptyParameter.stack [] EmptyParameter.emptyValue);
      [reflexivity| |reflexivity|reflexivity|].
    - simpl. apply elem_of_cons. right. apply elem_of_cons. by left.
    - intros q Hq. simpl in Hq.
      apply elem_of_cons in Hq as [->|Hq]; [discriminate|].
      apply list_elem_of_singleton in Hq as ->. done. }
  split; [exact H|]. unfold resolve_cluster. cbn [truthy]. by rewrite H.
Defined.

(** * The whole run *)

(** C1: the worked example.  On the environment of the example, without
    a port filter, in IPv4 mode and with the default starting port, the
    program prints the ssh line with the forward 49152 to 32768 for
    1.2.3.4, then the legend line of host port 32768, a tab, and web:80.
    The function of [index.js] prints the same. *)
Theorem worked_example :
  ssh_forwards Example.exampleWorld "svc-A" None None None false None
  = ok [ "ssh -L49152:localhost:32768 ec2-user@1.2.3.4"%string;
         "32768" +:+ tab +:+ "web:80" ] ∧
  ssh_forwards_index Example.exampleWorld "svc-A" None None None false
  = ok [ "ssh -L49152:localhost:32768 ec2-user@1.2.3.4"%string;
         "32768" +:+ tab +:+ "web:80" ].
Proof. split; reflexivity. Qed.

(** C2, as stated, fails.  A configured starting port of 0 is not used:
    [startingPort || 49152] takes it for none, and the first clause has
    the local port 49152.  And the local ports are not always increasing:
    [port] is a double, whose increment leaves 2^53 unchanged, so from
    the starting port 2^53 - 1 the three clauses of the run have the local
    ports 9007199254740991, 9007199254740992 and 9007199254740992. *)
Lemma starting_port_zero_or_large :
  ssh_forwards Example.exampleWorld "svc-A" None None None false (Some 0)
  = ok [ "ssh -L49152:localhost:32768 ec2-user@1.2.3.4"%string;
         "32768" +:+ tab +:+ "web:80" ] ∧
  localPort <$> plan_forwards (print_plan (start_port (Some 0)) [] Example.groups)
  = [49152] ∧
  ssh_forwards Collision.threeWorld "svc-A" None None None false
    (Some 9007199254740991)
  = ok [ "ssh -L9007199254740991:localhost:32768 -L9007199254740992:localhost:32769 ec2-user@1.2.3.4"%string;
         "32768" +:+ tab +:+ "web:80";
         "32769" +:+ tab +:+ "web:443";
         "ssh -L9007199254740992:localhost:32770 ec2-user@1.2.3.4"%string;
         "32770" +:+ tab +:+ "web:80" ] ∧
  localPort <$> plan_forwards
                  (print_plan (start_port (Some 9007199254740991))
                     Collision.threeIps Collision.threeGroups)
  = [9007199254740991; 9007199254740992; 9007199254740992].
Proof. repeat split; vm_compute; reflexivity. Qed.

(** C2, amended: the local ports of a run that reaches its output, while
    the counter stays between -2^53 and 2^53: the starting port is at least
    -2^53, and the starting port plus the number of clauses at most 2^53.
    The output is the rendering of [print_plan]; its [-L] clauses, in
    print order over all ssh lines, have the local ports [start],
    [start + 1], ... with no reset between groups, so they increase
    strictly and none is used twice.  [start] is the configured starting
    port when it is not 0, and 49152 when none or 0 is configured.
    [index.js] has no such parameter and starts at 49152. *)
Theorem local_ports_consecutive cp serviceStackName serviceName clusterStackName
    containerPorts ipv6 startingPort containerInstances instanceIps :
  resolve cp serviceStackName serviceName clusterStackName containerPorts ipv6
  = ok (containerInstances, instanceIps) →
  let start := start_port startingPort in
  let plan := print_plan start instanceIps containerInstances in
  - safe_limit ≤ start →
  start + Z.of_nat (length (plan_forwards plan)) ≤ safe_limit →
  ssh_forwards cp serviceStackName serviceName clusterStackName containerPorts ipv6
    startingPort = ok (render <$> plan) ∧
  length (plan_forwards plan) = length (containerInstances ≫= λ e, ports e.2) ∧
  (∀ i f, plan_forwards plan !! i = Some f → localPort f = start + Z.of_nat i) ∧
  (∀ i j f f', (i < j)%nat →
     plan_forwards plan !! i = Some f → plan_forwards plan !! j = Some f' →
     localPort f < localPort f') ∧
  (startingPort = None → start = 49152) ∧
  (∀ p, startingPort = Some p → p ≠ 0 → start = p) ∧
  (startingPort = Some 0 → start = 49152) ∧
  ssh_forwards_index cp serviceStackName serviceName clusterStackName containerPorts ipv6
  = ok (render <$> print_plan 49152 instanceIps containerInstances) ∧
  (49152 + Z.of_nat (length (containerInstances ≫= λ e, ports e.2)) ≤ safe_limit →
   ∀ i f, plan_forwards (print_plan 49152 instanceIps containerInstances) !! i = Some f →
          localPort f = 49152 + Z.of_nat i).
Proof.
  intros Hres start plan Hlow Hhigh.
  assert (∀ port, - safe_limit ≤ port →
            port + Z.of_nat (length (containerInstances ≫= λ e, ports e.2)) ≤ safe_limit →
            ∀ i f, plan_forwards (print_plan port instanceIps containerInstances) !! i
                   = Some f →
                   localPort f = port + Z.of_nat i) as Hcount.
  { intros port Hl Hh i f Hf. pose proof (lookup_lt_Some _ _ _ Hf) as Hi.
    rewrite length_plan_forwards in Hi.
    rewrite (plan_forwards_lookup _ _ _ _ _ Hf). apply advance_safe; lia. }
  unfold plan in Hhigh. rewrite length_plan_forwards in Hhigh.
  unfold ssh_forwards, ssh_forwards_index. rewrite Hres. simpl.
  rewrite !print_all_plan.
  split; [done|]. split; [apply length_plan_forwards|].
  split; [by apply Hcount|]. split.
  { intros i j f f' Hij Hi Hj.
    rewrite (Hcount start Hlow Hhigh _ _ Hi), (Hcount start Hlow Hhigh _ _ Hj). lia. }
  split; [by intros ->|]. split.
  { intros p -> Hp. unfold start. simpl. by rewrite decide_False. }
  split; [by intros ->|]. split; [done|].
  intros Hh. apply Hcount; [|done]. unfold safe_limit. lia.
Qed.

Lemma local_ports_consecutive_witness :
  ssh_forwards Collision.threeWorld "svc-A" None None None false (Some 50000)
  = ok [ "ssh -L50000:localhost:32768 -L50001:localhost:32769 ec2-user@1.2.3.4"%string;
         "32768" +:+ tab +:+ "web:80";
         "32769" +:+ tab +:+ "web:443";
         "ssh -L50002:localhost:32770 ec2-user@1.2.3.4"%string;
         "32770" +:+ tab +:+ "web:80" ] ∧
  ∀ i f, plan_forwards (print_plan 50000 Collision.threeIps Collision.threeGroups) !! i
         = Some f →
         localPort f = 50000 + Z.of_nat i.
Proof.
  destruct (local_ports_consecutive Collision.threeWorld "svc-A" None None None false
              (Some 50000) Collision.threeGroups Collision.threeIps eq_refl)
    as (Hout & _ & Hports & _).
  - vm_compute. discriminate.
  - vm_compute. discriminate.
  - split; [exact Hout|exact Hports].
Defined.

(** C7: no task.  When both names resolve, [listTasks] gives no task and
    the queries on the empty inputs give empty results, the aggregation
    has no group and the run succeeds and prints nothing. *)
Theorem no_tasks_no_output cp serviceStackName serviceName clusterStackName
    containerPorts ipv6 startingPort service cluster :
  getServiceName cp serviceStackName serviceName = ok service →
  resolve_cluster cp serviceStackName clusterStackName = ok cluster →
  listTasks cp service cluster = ok [] →
  describeTasks cp cluster [] = ok [] →
  describeContainerInstances cp [] cluster = ok [] →
  describeInstances cp [] = ok [] →
  aggregate containerPorts [] = ok [] ∧
  resolve_groups cp serviceStackName serviceName clusterStackName containerPorts = ok [] ∧
  ssh_forwards cp serviceStackName serviceName clusterStackName containerPorts ipv6
    startingPort = ok [] ∧
  ssh_forwards_index cp serviceStackName serviceName clusterStackName containerPorts ipv6
  = ok [].
Proof.
  intros Hs Hc Hl Ht Hci Hi.
  assert (resolve_groups cp serviceStackName serviceName clusterStackName containerPorts
          = ok []) as Hg.
  { unfold resolve_groups. rewrite Hs, Hc. simpl. rewrite Hl. simpl. rewrite Ht. simpl.
    by rewrite Hci. }
  split; [done|]. split; [done|].
  unfold ssh_forwards, ssh_forwards_index, resolve. rewrite Hg. simpl. rewrite Hi.
  by destruct ipv6.
Qed.

Lemma no_tasks_no_output_witness :
  ssh_forwards (Example.world [] (Example.instance1 None [])) "svc-A" None None None
    true None = ok [].
Proof.
  destruct (no_tasks_no_output (Example.world [] (Example.instance1 None [])) "svc-A"
              None None None true None "svc-phys" "i-cluster-phys"
              eq_refl eq_refl eq_refl eq_refl eq_refl eq_refl) as (_ & _ & Hout & _).
  exact Hout.
Defined.

(** * Addresses *)

Lemma instances_loop_ipv4 instances instanceIps :
  instances_loop false instances instanceIps
  = ok (fold_left set_public_ip instances instanceIps).
Proof.
  revert instanceIps. induction instances as [|i rest IH]; intros ips; [done|].
  simpl. apply IH.
Qed.

Lemma reservations_loop_ipv4 reservations instanceIps :
  reservations_loop false reservations instanceIps
  = ok (fold_left set_public_ip (reservations ≫= Instances) instanceIps).
Proof.
  revert instanceIps. induction reservations as [|r rs IH]; intros ips; [done|].
  csimpl. rewrite instances_loop_ipv4. simpl. rewrite IH. by rewrite fold_left_app.
Qed.

Lemma set_public_ips_get instances instanceIps instance :
  instance ∈ instances →
  (∀ other, other ∈ instances → InstanceId other = InstanceId instance →
            PublicIpAddress other = PublicIpAddress instance) →
  map_get (InstanceId instance) (fold_left set_public_ip instances instanceIps)
  = Some (PublicIpAddress instance).
Proof.
  induction instances as [|x l IH] using rev_ind; intros Hin Hsame.
  - by apply elem_of_nil in Hin.
  - rewrite fold_left_app. simpl. unfold set_public_ip at 1. rewrite map_get_set.
    destruct (decide (InstanceId x = InstanceId instance)) as [Hid|Hid].
    + f_equal. apply Hsame; [|done]. apply elem_of_app. right.
      by apply list_elem_of_singleton.
    + apply elem_of_app in Hin as [Hin| ->%list_elem_of_singleton]; [|done].
      apply IH; [done|]. intros other Hother. apply Hsame. apply elem_of_app. by left.
Qed.

(** The cases of the IPv6 branch, for one instance. *)
Lemma instance_address_ipv6 instance :
  instance_address true instance
  = match NetworkInterfaces instance with
    | [] => throw TypeError
    | interface0 :: _ =>
        match Ipv6Addresses interface0 with
        | None | Some [] => throw NoAddress
        | Some (addr0 :: _) => ok (Some (Ipv6Address addr0))
        end
    end.
Proof.
  unfold instance_address. destruct (NetworkInterfaces instance) as [|i0 ?]; [done|].
  by destruct (Ipv6Addresses i0) as [[|]|].
Qed.

Lemma instances_loop_app ipv6 l1 l2 instanceIps :
  instances_loop ipv6 (l1 ++ l2) instanceIps
  = let* instanceIps' := instances_loop ipv6 l1 instanceIps in
    instances_loop ipv6 l2 instanceIps'.
Proof.
  revert instanceIps. induction l1 as [|i l1 IH]; intros ips; [done|]. simpl.
  destruct (instance_address ipv6 i); [done|]. simpl. apply IH.
Qed.

Lemma reservations_loop_flat ipv6 reservations instanceIps :
  reservations_loop ipv6 reservations instanceIps
  = instances_loop ipv6 (reservations ≫= Instances) instanceIps.
Proof.
  revert instanceIps. induction reservations as [|r rs IH]; intros ips; [done|].
  csimpl. rewrite instances_loop_app.
  destruct (instances_loop ipv6 (Instances r) ips); [done|]. simpl. apply IH.
Qed.

(** The IPv6 branch where the claim holds: when every instance of the
    response has a network interface and one of them has no IPv6 address
    on its first interface, the loop throws "No IPv6 address". *)
Lemma ipv6_missing_address_fails reservations instanceIps :
  Forall (λ instance, NetworkInterfaces instance ≠ []) (reservations ≫= Instances) →
  Exists (λ instance, first_ipv6 instance = None) (reservations ≫= Instances) →
  reservations_loop true reservations instanceIps = throw NoAddress.
Proof.
  rewrite reservations_loop_flat. generalize (reservations ≫= Instances). clear.
  intros l Hnics Hmiss. revert instanceIps.
  induction l as [|i l IH]; intros ips.
  - by apply Exists_nil in Hmiss.
  - apply Forall_cons in Hnics as [Hi Hl]. apply Exists_cons in Hmiss.
    cbn [instances_loop]. rewrite instance_address_ipv6. unfold first_ipv6 in Hmiss.
    destruct (NetworkInterfaces i) as [|i0 ?]; [done|].
    destruct (Ipv6Addresses i0) as [[|a ?]|]; try done. simpl.
    apply IH; [done|]. by destruct Hmiss.
Qed.

Lemma instances_loop_ipv6 instances instanceIps :
  Forall (λ instance, is_Some (first_ipv6 instance)) instances →
  instances_loop true instances instanceIps
  = ok (fold_left set_ipv6 instances instanceIps).
Proof.
  intros Hall. revert instanceIps. induction Hall as [|i l Hi Hl IH]; intros ips.
  - done.
  - cbn [instances_loop fold_left]. rewrite instance_address_ipv6.
    unfold set_ipv6 at 2. unfold first_ipv6 in *.
    destruct (NetworkInterfaces i) as [|i0 ?]; [by destruct Hi|].
    destruct (Ipv6Addresses i0) as [[|a ?]|]; try by destruct Hi. simpl. apply IH.
Qed.

(** The IPv6 branch where every instance has an address: each instance
    id is given the first IPv6 address of the first network interface. *)
Lemma ipv6_addresses_recorded reservations instanceIps :
  Forall (λ instance, is_Some (first_ipv6 instance)) (reservations ≫= Instances) →
  reservations_loop true reservations instanceIps
  = ok (fold_left set_ipv6 (reservations ≫= Instances) instanceIps).
Proof. rewrite reservations_loop_flat. apply instances_loop_ipv6. Qed.

(** In the IPv6 branch an instance without network interface, reached
    before any instance without address, makes the loop throw a
    [TypeError]. *)
Lemma ipv6_no_interface_fails pre instance post instanceIps :
  Forall (λ i, is_Some (first_ipv6 i)) pre →
  NetworkInterfaces instance = [] →
  instances_loop true (pre ++ instance :: post) instanceIps = throw TypeError.
Proof.
  intros Hpre Hnone. rewrite instances_loop_app, (instances_loop_ipv6 _ _ Hpre).
  cbn [bind ok instances_loop]. by rewrite instance_address_ipv6, Hnone.
Qed.

(** C5, where the code departs from it: in IPv6 mode an instance without
    a network interface makes the run fail with a [TypeError], raised by
    the read of [Ipv6Addresses] from [undefined], and not with "No IPv6
    address".  The run is that of the worked example, with [ipv6] set and
    the instance described without interfaces. *)
Theorem ipv6_no_interface_type_error :
  instance_address true (Example.instance1 (Some "1.2.3.4"%string) []) = throw TypeError ∧
  ssh_forwards
    (Example.world [Example.webTask] (Example.instance1 (Some "1.2.3.4"%string) []))
    "svc-A" None None None true None = throw TypeError ∧
  TypeError ≠ NoAddress.
Proof. split; [reflexivity|]. split; [reflexivity|discriminate]. Qed.

(** C6, as stated, fails: in IPv4 mode, on the worked example with an
    instance without public address, the run completes and the ssh line
    ends with "ec2-user@undefined"; the address is not rendered empty. *)
Lemma missing_public_ip_prints_undefined :
  ssh_forwards (Example.world [Example.webTask] (Example.instance1 None []))
    "svc-A" None None None false None
  = ok [ "ssh -L49152:localhost:32768 ec2-user@undefined"%string;
         "32768" +:+ tab +:+ "web:80" ] ∧
  "ssh -L49152:localhost:32768 ec2-user@undefined"%string
  ≠ "ssh -L49152:localhost:32768 ec2-user@"%string.
Proof. split; [reflexivity|discriminate]. Qed.

(** C6, amended: in IPv4 mode the address loop never fails, whatever the
    public addresses are: once the groups are resolved and
    [describeInstances] has answered, the run completes and prints the
    rendering of [print_plan].  For a group whose instance is described
    with public address [a], the plan has the ssh line of the group with
    that address, and it is rendered after "ec2-user@" as the address
    itself, so as nothing when [a] is the empty string, and as the text
    "undefined" when the address is missing. *)
Theorem ipv4_address_never_fails cp serviceStackName serviceName clusterStackName
    containerPorts startingPort containerInstances reservations :
  resolve_groups cp serviceStackName serviceName clusterStackName containerPorts
  = ok containerInstances →
  describeInstances cp (instanceId <$> map_values containerInstances) = ok reservations →
  ∃ instanceIps,
    resolve cp serviceStackName serviceName clusterStackName containerPorts false
    = ok (containerInstances, instanceIps) ∧
    ssh_forwards cp serviceStackName serviceName clusterStackName containerPorts false
      startingPort
    = ok (render <$> print_plan (start_port startingPort) instanceIps containerInstances) ∧
    ∀ arn v instance,
      (arn, v) ∈ containerInstances →
      instanceId v = Some (InstanceId instance) →
      instance ∈ reservations ≫= Instances →
      (∀ other, other ∈ reservations ≫= Instances →
                InstanceId other = InstanceId instance →
                PublicIpAddress other = PublicIpAddress instance) →
      ∃ forwards,
        SshLine forwards (PublicIpAddress instance)
          ∈ print_plan (start_port startingPort) instanceIps containerInstances ∧
        render (SshLine forwards (PublicIpAddress instance))
        = "ssh" +:+ foldr String.append "" (forward_string <$> forwards)
            +:+ " ec2-user@"
            +:+ match PublicIpAddress instance with
                | Some a => a
                | None => "undefined"
                end.
Proof.
  intros Hg Hi. eexists. split; [|split].
  - unfold resolve. rewrite Hg. simpl. rewrite Hi. simpl.
    rewrite reservations_loop_ipv4. reflexivity.
  - unfold ssh_forwards, resolve. rewrite Hg. simpl. rewrite Hi. simpl.
    rewrite reservations_loop_ipv4. simpl. by rewrite print_all_plan.
  - intros arn v instance Hv Hid Hin Hsame.
    destruct (plan_group_line (start_port startingPort)
                (fold_left set_public_ip (reservations ≫= Instances) [])
                containerInstances arn v Hv) as [port' Hline].
    exists (forwards_from port' (ports v)). split; [|done].
    unfold ip_address in Hline. rewrite Hid in Hline.
    by rewrite (set_public_ips_get _ _ _ Hin Hsame) in Hline.
Qed.

Lemma ipv4_address_never_fails_witness :
  ∃ instanceIps,
    resolve (Example.world [Example.webTask] (Example.instance1 None []))
      "svc-A" None None None false
    = ok (Example.groups, instanceIps) ∧
    ∃ forwards,
      SshLine forwards None ∈ print_plan 49152 instanceIps Example.groups.
Proof.
  destruct (ipv4_address_never_fails
              (Example.world [Example.webTask] (Example.instance1 None []))
              "svc-A" None None None None Example.groups
              [ {| Instances := [Example.instance1 None []] |} ] eq_refl eq_refl)
    as (ips & Hres & _ & Hline).
  exists ips. split; [exact Hres|].
  destruct (Hline "ci-1"%string Example.group (Example.instance1 None []))
    as (fs & Hfs & _).
  - apply elem_of_cons. left. reflexivity.
  - reflexivity.
  - apply elem_of_cons. left. reflexivity.
  - intros other Hother _. apply list_elem_of_singleton in Hother. by subst.
  - by exists fs.
Defined.

(** * The groups that are printed *)

Lemma map_set_bindings k g g' m :
  map_get k m = Some g → ports g' = ports g → byHostPort g' = byHostPort g →
  bindings_of (map_set k g' m) = bindings_of m.
Proof.
  unfold bindings_of. intros Hget Hp Ho.
  induction m as [|[k0 g0] m IH]; simpl in *; [done|].
  destruct (decide (k = k0)) as [->|Hne]; csimpl.
  - injection Hget as ->. by rewrite Hp, Ho.
  - f_equal. by apply IH.
Qed.

Lemma set_instance_ids_bindings cis m m' :
  set_instance_ids cis m = ok m' → bindings_of m' = bindings_of m.
Proof.
  revert m. induction cis as [|ci cis IH]; intros m; simpl.
  - by intros [= <-].
  - destruct (map_get (ciArn ci) m) as [g|] eqn:Hg; [|done].
    intros ->%IH. by eapply map_set_bindings.
Qed.

(** The groups of a run are those of the aggregation of the
    [describeTasks] response: [set_instance_ids] leaves the keys, their
    order and both maps as they are. *)
Lemma resolve_groups_bindings cp serviceStackName serviceName clusterStackName
    containerPorts containerInstances :
  resolve_groups cp serviceStackName serviceName clusterStackName containerPorts
  = ok containerInstances →
  ∃ cluster taskList tasks aggregation,
    describeTasks cp cluster taskList = ok tasks ∧
    aggregate containerPorts tasks = ok aggregation ∧
    bindings_of containerInstances = bindings_of aggregation.
Proof.
  unfold resolve_groups.
  destruct (promise_all _ _ _) as [e|[service cluster]]; [done|]. simpl.
  destruct (listTasks cp service cluster) as [e|taskList]; [done|]. simpl.
  destruct (describeTasks cp cluster taskList) as [e|tasks] eqn:Htasks; [done|]. simpl.
  destruct (aggregate containerPorts tasks) as [e|agg] eqn:Hagg; [done|]. simpl.
  destruct (describeContainerInstances cp _ cluster) as [e|data]; [done|]. simpl.
  intros Hset%set_instance_ids_bindings.
  by exists cluster, taskList, tasks, agg.
Qed.

(** * Further properties of the resolvers *)

Lemma clusterStackParam_first pre p post :
  Forall (λ q, ParameterKey q ≠ "ClusterStackName"%string) pre →
  ParameterKey p = "ClusterStackName"%string →
  clusterStackParam (pre ++ p :: post) = Some (ParameterValue p).
Proof.
  intros Hpre Hp. induction Hpre as [|q pre Hq _ IH]; simpl.
  - by rewrite Hp.
  - apply String.eqb_neq in Hq. by rewrite Hq.
Qed.

Lemma truthy_Some s : s ≠ ""%string → truthy (Some s) = true.
Proof. intros Hs. simpl. by apply String.eqb_neq in Hs as ->. Qed.

(** X1: [getClusterStackName] fails with "Stack not found" on a response
    without stacks; otherwise it reads the first stack only and returns
    the value of its first parameter with the key "ClusterStackName",
    when that value is not empty, whatever parameters follow. *)
Theorem getClusterStackName_first_match cp serviceStackName :
  (describeStacks cp serviceStackName = ok [] →
   getClusterStackName cp serviceStackName = throw StackNotFound) ∧
  (∀ stack rest pre p post,
     describeStacks cp serviceStackName = ok (stack :: rest) →
     Parameters stack = pre ++ p :: post →
     Forall (λ q, ParameterKey q ≠ "ClusterStackName"%string) pre →
     ParameterKey p = "ClusterStackName"%string →
     ParameterValue p ≠ ""%string →
     getClusterStackName cp serviceStackName = ok (ParameterValue p)).
Proof.
  unfold getClusterStackName. split.
  - by intros ->.
  - intros stack rest pre p post -> Hps Hpre Hkey Hval. simpl.
    rewrite Hps, (clusterStackParam_first _ _ _ Hpre Hkey).
    by rewrite (truthy_Some _ Hval).
Qed.

Lemma getClusterStackName_first_match_witness :
  getClusterStackName Example.exampleWorld "svc-A" = ok "cluster-A"%string.
Proof.
  destruct (getClusterStackName_first_match Example.exampleWorld "svc-A") as [_ Hfound].
  exact (Hfound _ [] [] {| ParameterKey := "ClusterStackName";
                           ParameterValue := "cluster-A" |} []
           eq_refl eq_refl (Forall_nil_2 _) eq_refl ltac:(discriminate)).
Defined.

(** X2: with a cluster stack name given (a non-empty string), the cluster
    is resolved from the resources of that stack alone: neither the
    service stack name nor [describeStacks] has a part in the result,
    which is "Cluster stack not found" on an empty response and the
    physical id of the first resource otherwise. *)
Theorem resolve_cluster_direct cp cp' serviceStackName serviceStackName' name :
  name ≠ ""%string →
  (∀ n l, describeStackResources cp' n l = describeStackResources cp n l) →
  resolve_cluster cp' serviceStackName' (Some name)
  = resolve_cluster cp serviceStackName (Some name) ∧
  (describeStackResources cp name (Some "cluster"%string) = ok [] →
   resolve_cluster cp serviceStackName (Some name) = throw ClusterStackNotFound) ∧
  (∀ r rest, describeStackResources cp name (Some "cluster"%string) = ok (r :: rest) →
   resolve_cluster cp serviceStackName (Some name) = ok (PhysicalResourceId r)).
Proof.
  intros Hname Hsame.
  assert (∀ c ssn, resolve_cluster c ssn (Some name)
                   = bind (describeStackResources c name (Some "cluster"%string))
                       clusterNameOf) as Heq.
  { intros c ssn. unfold resolve_cluster. by rewrite (truthy_Some _ Hname). }
  rewrite !Heq, Hsame. split; [done|]. split.
  - by intros ->.
  - by intros r rest ->.
Qed.

Lemma resolve_cluster_direct_witness :
  resolve_cluster EmptyParameter.world "svc-A" (Some "cluster-A"%string)
  = throw ClusterStackNotFound ∧
  resolve_cluster Example.exampleWorld "other" (Some "cluster-A"%string)
  = ok "i-cluster-phys"%string.
Proof.
  split.
  - destruct (resolve_cluster_direct EmptyParameter.world EmptyParameter.world
                "svc-A" "svc-A" "cluster-A" ltac:(discriminate) (λ _ _, eq_refl))
      as (_ & Hnone & _).
    exact (Hnone eq_refl).
  - destruct (resolve_cluster_direct Example.exampleWorld Example.exampleWorld
                "other" "svc-A" "cluster-A" ltac:(discriminate) (λ _ _, eq_refl))
      as (_ & _ & Hfirst).
    exact (Hfirst Example.clusterResource [] eq_refl).
Defined.

(** X3: without a cluster stack name (or with the empty string), the
    cluster is resolved in two steps: the name found in the
    "ClusterStackName" parameter of the service stack is the stack whose
    resource "cluster" is looked up.  A failure of the first step is the
    failure of the whole, and the resources are then not looked at. *)
Theorem resolve_cluster_indirect cp serviceStackName clusterStackName :
  truthy clusterStackName = false →
  (∀ e, getClusterStackName cp serviceStackName = throw e →
        resolve_cluster cp serviceStackName clusterStackName = throw e) ∧
  (∀ name, getClusterStackName cp serviceStackName = ok name →
     (describeStackResources cp name (Some "cluster"%string) = ok [] →
      resolve_cluster cp serviceStackName clusterStackName
      = throw ClusterStackNotFound) ∧
     (∀ r rest,
        describeStackResources cp name (Some "cluster"%string) = ok (r :: rest) →
        resolve_cluster cp serviceStackName clusterStackName
        = ok (PhysicalResourceId r)) ∧
     (∀ e, describeStackResources cp name (Some "cluster"%string) = throw e →
        resolve_cluster cp serviceStackName clusterStackName = throw e)).
Proof.
  intros Hno. unfold resolve_cluster. rewrite Hno. split.
  - by intros e ->.
  - intros name ->. unfold getClusterName. cbn [bind ok].
    split; [by intros ->|]. split; [by intros r rest ->|by intros e ->].
Qed.

Lemma resolve_cluster_indirect_witness :
  resolve_cluster Example.exampleWorld "svc-A" (Some ""%string)
  = ok "i-cluster-phys"%string.
Proof.
  destruct (resolve_cluster_indirect Example.exampleWorld "svc-A" (Some ""%string)
              eq_refl) as [_ Hfound].
  destruct (Hfound "cluster-A"%string eq_refl) as (_ & Hfirst & _).
  exact (Hfirst Example.clusterResource [] eq_refl).
Defined.

(** * Further properties of the aggregation *)

Lemma containers_loop_short containerPorts task j cs m :
  cs ≠ [] →
  (length (containerOverrides task) < j + length cs)%nat →
  containers_loop containerPorts task j cs m = throw TypeError.
Proof.
  revert j m. induction cs as [|c cs IH]; intros j m Hne Hlen; [done|]. simpl in *.
  destruct (containerOverrides task !! j) as [ov|] eqn:Hov; [|done].
  apply lookup_lt_Some in Hov.
  apply IH; [|lia]. intros ->. simpl in Hlen. lia.
Qed.

Lemma tasks_loop_short containerPorts tasks m :
  ¬ overrides_cover tasks →
  tasks_loop containerPorts tasks m = throw TypeError.
Proof.
  unfold overrides_cover. revert m.
  induction tasks as [|t ts IH]; intros m Hshort.
  - destruct Hshort. constructor.
  - simpl.
    destruct (decide (length (containers t) ≤ length (containerOverrides t))%nat)
      as [Hle|Hgt].
    + destruct (containers_loop_total containerPorts t 0 (containers t) m)
        as [m1 ->]; [simpl; lia|].
      simpl. apply IH. intros Hts. apply Hshort. by constructor.
    + rewrite containers_loop_short; [done| |simpl; lia].
      intros Hnil. rewrite Hnil in Hgt. simpl in Hgt. lia.
Qed.

(** X4: the aggregation fails exactly when some task has fewer override
    entries than containers, and then with a [TypeError], whatever the
    port filter is and whether the container without entry has bindings
    or not; it has no other failure. *)
Theorem aggregate_fails_iff_override_missing containerPorts tasks :
  (overrides_cover tasks ↔ ∃ m, aggregate containerPorts tasks = ok m) ∧
  (¬ overrides_cover tasks ↔ aggregate containerPorts tasks = throw TypeError) ∧
  (∀ e, aggregate containerPorts tasks = throw e → e = TypeError).
Proof.
  assert (Decision (overrides_cover tasks)) as Hdec
    by (unfold overrides_cover; apply _).
  unfold aggregate. destruct Hdec as [Hcover|Hshort].
  - destruct (tasks_loop_total containerPorts tasks [] Hcover) as [m Hm].
    rewrite Hm. split; [|split]; [split; eauto|split; [done|by intros [=]]|by intros e [=]].
  - rewrite (tasks_loop_short _ _ _ Hshort).
    split; [|split].
    + split; [done|]. by intros [m [=]].
    + done.
    + by intros e [= <-].
Qed.

Lemma aggregate_fails_iff_override_missing_witness :
  aggregate (Some ∅) [Collision.missingOverride] = throw TypeError.
Proof.
  destruct (aggregate_fails_iff_override_missing (Some ∅) [Collision.missingOverride])
    as (_ & [Hfail _] & _).
  apply Hfail. intros Hcover. apply Forall_cons in Hcover as [Hlen _].
  simpl in Hlen. lia.
Defined.

Lemma fold_writes_keep_port post m arn cp hp :
  Forall (λ w, ¬ (w_arn w = arn ∧ containerPort (w_binding w) = cp)) post →
  (∃ g, map_get arn m = Some g ∧ map_get cp (ports g) = Some hp) →
  ∃ g, map_get arn (fold_left apply_write post m) = Some g ∧
       map_get cp (ports g) = Some hp.
Proof.
  intros Hpost. revert m. induction Hpost as [|w post Hw _ IH]; intros m Hm; [done|].
  simpl. apply IH. destruct Hm as (g & Hg & Hcp).
  rewrite apply_write_get. destruct (decide (w_arn w = arn)) as [Harn|Hne].
  - eexists. split; [done|]. simpl. rewrite Harn, Hg. simpl.
    rewrite map_get_set_ne; [done|]. intros Heq. apply Hw. by split.
  - by exists g.
Qed.

Lemma fold_writes_keep_owner post m arn hp o :
  Forall (λ w, ¬ (w_arn w = arn ∧ hostPort (w_binding w) = hp)) post →
  (∃ g, map_get arn m = Some g ∧ map_get hp (byHostPort g) = Some o) →
  ∃ g, map_get arn (fold_left apply_write post m) = Some g ∧
       map_get hp (byHostPort g) = Some o.
Proof.
  intros Hpost. revert m. induction Hpost as [|w post Hw _ IH]; intros m Hm; [done|].
  simpl. apply IH. destruct Hm as (g & Hg & Hhp).
  rewrite apply_write_get. destruct (decide (w_arn w = arn)) as [Harn|Hne].
  - eexists. split; [done|]. simpl. rewrite Harn, Hg. simpl.
    rewrite map_get_set_ne; [done|]. intros Heq. apply Hw. by split.
  - by exists g.
Qed.

(** X5: the last write wins.  For a retained binding of the response
    after which, in the order of the loops, no retained binding of the
    same container instance has the same container port, the [ports] map
    of the group holds its host port under its container port; and when
    none after it has the same host port, the [byHostPort] map holds its
    name and container port under its host port. *)
Theorem last_write_wins containerPorts tasks m pre w post :
  aggregate containerPorts tasks = ok m →
  writes containerPorts tasks = pre ++ w :: post →
  (Forall (λ w', ¬ (w_arn w' = w_arn w ∧
                    containerPort (w_binding w') = containerPort (w_binding w))) post →
   ∃ g, map_get (w_arn w) m = Some g ∧
        map_get (containerPort (w_binding w)) (ports g)
        = Some (hostPort (w_binding w))) ∧
  (Forall (λ w', ¬ (w_arn w' = w_arn w ∧
                    hostPort (w_binding w') = hostPort (w_binding w))) post →
   ∃ g, map_get (w_arn w) m = Some g ∧
        map_get (hostPort (w_binding w)) (byHostPort g)
        = Some {| containerName := w_name w;
                  ownerContainerPort := containerPort (w_binding w) |}).
Proof.
  intros ->%tasks_loop_writes ->.
  rewrite fold_left_app. simpl.
  set (m0 := fold_left apply_write pre []).
  assert (∃ g, map_get (w_arn w) (apply_write m0 w) = Some g ∧
               map_get (containerPort (w_binding w)) (ports g)
               = Some (hostPort (w_binding w)) ∧
               map_get (hostPort (w_binding w)) (byHostPort g)
               = Some {| containerName := w_name w;
                         ownerContainerPort := containerPort (w_binding w) |})
    as (g & Hg & Hcp & Hhp).
  { rewrite apply_write_get, decide_True by done. eexists. split; [done|].
    simpl. by rewrite !map_get_set_eq. }
  split; intros Hpost.
  - apply fold_writes_keep_port; [done|]. by exists g.
  - apply fold_writes_keep_owner; [done|]. by exists g.
Qed.

Lemma last_write_wins_witness :
  ∃ m g, aggregate None Collision.twoCopies = ok m ∧
         map_get "ci-1"%string m = Some g ∧
         map_get 80 (ports g) = Some 32769.
Proof.
  exists [("ci-1"%string,
           {| ports := [(80, 32769)];
              byHostPort :=
                [(32768, {| containerName := "web"; ownerContainerPort := 80 |});
                 (32769, {| containerName := "web"; ownerContainerPort := 80 |})];
              instanceId := None |})].
  destruct (last_write_wins None Collision.twoCopies
              [("ci-1"%string,
                {| ports := [(80, 32769)];
                   byHostPort :=
                     [(32768, {| containerName := "web"; ownerContainerPort := 80 |});
                      (32769, {| containerName := "web"; ownerContainerPort := 80 |})];
                   instanceId := None |})]
              [ {| w_arn := "ci-1"; w_name := "web";
                   w_binding := {| containerPort := 80; hostPort := 32768 |} |} ]
              {| w_arn := "ci-1"; w_name := "web";
                 w_binding := {| containerPort := 80; hostPort := 32769 |} |}
              [] eq_refl eq_refl) as [Hports _].
  destruct (Hports (Forall_nil_2 _)) as (g & Hg & Hcp).
  exists g. split; [reflexivity|]. split; [exact Hg|exact Hcp].
Defined.

Section FirstOccurrences.
Context {A : Type} `{EqDecision A}.
Implicit Types (x : A) (l : list A).

Lemma elem_of_first_occurrences x l : x ∈ first_occurrences l ↔ x ∈ l.
Proof.
  induction l as [|y l IH]; [done|]. simpl.
  rewrite !elem_of_cons, list_elem_of_filter, IH.
  destruct (decide (x = y)) as [->|Hne]; [tauto|]. tauto.
Qed.

Lemma first_occurrences_snoc l x :
  first_occurrences (l ++ [x])
  = if decide (x ∈ l) then first_occurrences l else first_occurrences l ++ [x].
Proof.
  induction l as [|y l IH].
  - destruct (decide (x ∈ [])) as [Hin|_]; [by apply elem_of_nil in Hin|done].
  - cbn [app first_occurrences]. rewrite IH.
    destruct (decide (x ∈ l)) as [Hin|Hnotin];
      destruct (decide (x ∈ y :: l)) as [Hin'|Hnotin'].
    + done.
    + exfalso. apply Hnotin'. apply elem_of_cons. by right.
    + apply elem_of_cons in Hin' as [->|Hin']; [|done].
      rewrite filter_app, filter_cons_False by (intros Hy; by apply Hy).
      by rewrite filter_nil, app_nil_r.
    + apply not_elem_of_cons in Hnotin' as [Hne _].
      by rewrite filter_app, filter_cons_True by done.
Qed.

Lemma map_keys_set_first_occurrences {V} x (v : V) (m : list (A * V)) l :
  map_keys m = first_occurrences l →
  map_keys (map_set x v m) = first_occurrences (l ++ [x]).
Proof.
  intros Hkeys. rewrite map_keys_set, first_occurrences_snoc. unfold map_has.
  destruct (map_get x m) as [v'|] eqn:Hget.
  - rewrite decide_True; [done|].
    apply elem_of_first_occurrences. rewrite <-Hkeys.
    apply map_get_is_Some. by eexists.
  - rewrite decide_False; [by rewrite Hkeys|].
    apply map_get_None in Hget. rewrite Hkeys in Hget.
    by rewrite elem_of_first_occurrences in Hget.
Qed.
End FirstOccurrences.

Lemma writes_of_snoc arn ws w :
  writes_of arn (ws ++ [w])
  = if decide (w_arn w = arn) then writes_of arn ws ++ [w] else writes_of arn ws.
Proof.
  unfold writes_of. rewrite filter_app. destruct (decide (w_arn w = arn)).
  - by rewrite filter_cons_True.
  - by rewrite filter_cons_False, filter_nil, app_nil_r.
Qed.

Lemma writes_of_absent arn ws : arn ∉ w_arn <$> ws → writes_of arn ws = [].
Proof.
  unfold writes_of. induction ws as [|w ws IH]; [done|]. csimpl.
  rewrite not_elem_of_cons. intros [Hne Hws].
  rewrite filter_cons_False by congruence. by apply IH.
Qed.

(** The keys of the aggregation and of the maps of its groups, after the
    writes [ws] from the empty [Map]. *)
Lemma fold_writes_order ws :
  map_keys (fold_left apply_write ws []) = first_occurrences (w_arn <$> ws) ∧
  ∀ arn g, map_get arn (fold_left apply_write ws []) = Some g →
    map_keys (ports g)
    = first_occurrences ((λ w, containerPort (w_binding w)) <$> writes_of arn ws) ∧
    map_keys (byHostPort g)
    = first_occurrences ((λ w, hostPort (w_binding w)) <$> writes_of arn ws).
Proof.
  induction ws as [|w ws [IHkeys IHgroups]] using rev_ind; [done|].
  rewrite fold_left_app. simpl. set (m := fold_left apply_write ws []) in *.
  split.
  - rewrite fmap_app. by apply map_keys_set_first_occurrences.
  - intros arn g. rewrite apply_write_get, writes_of_snoc.
    destruct (decide (w_arn w = arn)) as [<-|Hne]; [|apply IHgroups].
    intros [= <-]. simpl. rewrite !fmap_app. simpl.
    destruct (map_get (w_arn w) m) as [g0|] eqn:Hg0; simpl.
    + destruct (IHgroups _ _ Hg0) as [Hp Ho].
      split; by apply map_keys_set_first_occurrences.
    + apply map_get_None in Hg0. rewrite IHkeys, elem_of_first_occurrences in Hg0.
      by rewrite (writes_of_absent _ _ Hg0).
Qed.

(** X6: discovery order.  The container instances of the aggregation are
    those of the retained bindings, each once, in the order in which the
    loops first meet them; the keys of [ports] of a group are the
    container ports of the retained bindings of that container instance
    in the order of their first occurrence, and the keys of [byHostPort]
    their host ports likewise. *)
Theorem discovery_order containerPorts tasks m :
  aggregate containerPorts tasks = ok m →
  map_keys m = first_occurrences (w_arn <$> writes containerPorts tasks) ∧
  ∀ arn g, map_get arn m = Some g →
    map_keys (ports g)
    = first_occurrences ((λ w, containerPort (w_binding w))
                           <$> writes_of arn (writes containerPorts tasks)) ∧
    map_keys (byHostPort g)
    = first_occurrences ((λ w, hostPort (w_binding w))
                           <$> writes_of arn (writes containerPorts tasks)).
Proof. intros ->%tasks_loop_writes. apply fold_writes_order. Qed.

Lemma discovery_order_witness :
  ∃ m, aggregate None Collision.threeTasks = ok m ∧
       map_keys m = ["ci-1"%string; "ci-2"%string] ∧
       ∃ g, map_get "ci-1"%string m = Some g ∧ map_keys (ports g) = [80; 443].
Proof.
  eexists. split; [reflexivity|].
  destruct (discovery_order None Collision.threeTasks _ eq_refl) as [Hkeys Hgroups].
  split; [exact Hkeys|].
  eexists. split; [reflexivity|].
  exact (proj1 (Hgroups "ci-1"%string _ eq_refl)).
Defined.

Lemma written_arns containerPorts tasks arn :
  arn ∈ w_arn <$> writes containerPorts tasks
  ↔ ∃ n b, discovered containerPorts tasks arn n b.
Proof.
  rewrite list_elem_of_fmap. split.
  - intros (w & -> & Hw%elem_of_writes). eauto.
  - intros (n & b & Hd).
    exists {| w_arn := arn; w_name := n; w_binding := b |}.
    split; [done|]. by apply elem_of_writes.
Qed.

Lemma aggregate_groups_nonempty containerPorts tasks m arn g :
  aggregate containerPorts tasks = ok m →
  map_get arn m = Some g → ports g ≠ [] ∧ byHostPort g ≠ [].
Proof.
  intros ->%tasks_loop_writes Hg.
  destruct (fold_writes_order (writes containerPorts tasks)) as [Hkeys Hgroups].
  assert (arn ∈ w_arn <$> writes containerPorts tasks) as Harn.
  { rewrite <-elem_of_first_occurrences, <-Hkeys. apply map_get_is_Some. by eexists. }
  apply list_elem_of_fmap in Harn as (w & -> & Hw).
  assert (w ∈ writes_of (w_arn w) (writes containerPorts tasks)) as Hw'
    by by apply list_elem_of_filter.
  destruct (Hgroups _ _ Hg) as [Hp Ho].
  split.
  - intros Hnil. rewrite Hnil in Hp.
    assert (containerPort (w_binding w) ∈ @nil Z) as Hin; [|by apply elem_of_nil in Hin].
    unfold map_keys in Hp. simpl in Hp. rewrite Hp. apply elem_of_first_occurrences.
    apply list_elem_of_fmap. by exists w.
  - intros Hnil. rewrite Hnil in Ho.
    assert (hostPort (w_binding w) ∈ @nil Z) as Hin; [|by apply elem_of_nil in Hin].
    unfold map_keys in Ho. simpl in Ho. rewrite Ho. apply elem_of_first_occurrences.
    apply list_elem_of_fmap. by exists w.
Qed.

(** X7: a container instance has a group exactly when a retained binding
    of the response runs on it, and no group is empty: both of its maps
    have an entry. *)
Theorem groups_have_bindings containerPorts tasks m :
  aggregate containerPorts tasks = ok m →
  (∀ arn, arn ∈ map_keys m ↔ ∃ n b, discovered containerPorts tasks arn n b) ∧
  (∀ arn g, map_get arn m = Some g → ports g ≠ [] ∧ byHostPort g ≠ []).
Proof.
  intros Hagg. split.
  - intros arn. pose proof Hagg as ->%tasks_loop_writes.
    destruct (fold_writes_order (writes containerPorts tasks)) as [Hkeys _].
    rewrite Hkeys, elem_of_first_occurrences. apply written_arns.
  - intros arn g. exact (aggregate_groups_nonempty _ _ _ arn g Hagg).
Qed.

Lemma groups_have_bindings_witness :
  ∃ n b, discovered None Collision.threeTasks "ci-2" n b.
Proof.
  destruct (groups_have_bindings None Collision.threeTasks _ eq_refl) as [Hiff _].
  apply Hiff. vm_compute. apply elem_of_cons. right. apply elem_of_cons. by left.
Defined.

(** X8: a port filter that no binding of the response passes (the empty
    [Set] among them) gives an aggregation without groups, not an
    unfiltered one, provided the override entries are there. *)
Theorem unmatched_filter_no_groups s tasks :
  overrides_cover tasks →
  (∀ arn n b, discovered None tasks arn n b → containerPort b ∉ s) →
  aggregate (Some s) tasks = ok [].
Proof.
  intros Hcover Hnone.
  destruct (tasks_loop_total (Some s) tasks [] Hcover) as [m Hm].
  unfold aggregate. rewrite Hm. f_equal.
  apply tasks_loop_writes in Hm as ->.
  assert (writes (Some s) tasks = []) as ->; [|done].
  apply elem_of_nil_inv. intros w Hw%elem_of_writes.
  apply discovered_allowed in Hw as [Hw Hs]. by apply (Hnone _ _ _ Hw).
Qed.

Lemma unmatched_filter_no_groups_witness :
  aggregate (Some ∅) Collision.twoCopies = ok [].
Proof.
  apply unmatched_filter_no_groups.
  - repeat constructor.
  - intros arn n b _. apply not_elem_of_empty.
Defined.

(** * Further properties of the instance ids *)

Lemma set_instance_ids_fold cis m m' :
  set_instance_ids cis m = ok m' → m' = fold_left set_instance_id cis m.
Proof.
  revert m. induction cis as [|ci cis IH]; intros m; simpl.
  - by intros [= <-].
  - unfold set_instance_id at 2.
    destruct (map_get (ciArn ci) m) as [g|]; [apply IH|done].
Qed.

Lemma set_instance_id_keys m ci : map_keys (set_instance_id m ci) = map_keys m.
Proof.
  unfold set_instance_id. destruct (map_get (ciArn ci) m) as [g|] eqn:Hg; [|done].
  rewrite map_keys_set. unfold map_has. by rewrite Hg.
Qed.

Lemma set_instance_ids_total cis m :
  Forall (λ ci, ciArn ci ∈ map_keys m) cis →
  ∃ m', set_instance_ids cis m = ok m'.
Proof.
  intros Hall. revert m Hall. induction cis as [|ci cis IH]; intros m Hall; simpl.
  - by eexists.
  - apply Forall_cons in Hall as [Hci Hcis].
    apply map_get_is_Some in Hci as [g Hg]. rewrite Hg.
    apply IH. eapply Forall_impl; [done|]. simpl. intros ci' Hci'.
    rewrite map_keys_set. unfold map_has. by rewrite Hg.
Qed.

Lemma set_instance_ids_unknown cis m :
  ¬ Forall (λ ci, ciArn ci ∈ map_keys m) cis →
  set_instance_ids cis m = throw TypeError.
Proof.
  revert m. induction cis as [|ci cis IH]; intros m Hnot; simpl.
  - destruct Hnot. constructor.
  - destruct (map_get (ciArn ci) m) as [g|] eqn:Hg; [|done].
    apply IH. intros Hall. apply Hnot. constructor.
    + apply map_get_is_Some. by eexists.
    + eapply Forall_impl; [done|]. simpl. intros ci'.
      rewrite map_keys_set. unfold map_has. by rewrite Hg.
Qed.

Lemma fold_set_instance_id_get cis m ci g :
  ci ∈ cis →
  (∀ other, other ∈ cis → ciArn other = ciArn ci →
            ec2InstanceId other = ec2InstanceId ci) →
  map_get (ciArn ci) m = Some g →
  map_get (ciArn ci) (fold_left set_instance_id cis m)
  = Some {| ports := ports g; byHostPort := byHostPort g;
            instanceId := Some (ec2InstanceId ci) |}.
Proof.
  intros Hin Hsame Hg.
  assert (∀ l, ∃ g', map_get (ciArn ci) (fold_left set_instance_id l m) = Some g' ∧
                     ports g' = ports g ∧ byHostPort g' = byHostPort g) as Hshape.
  { induction l as [|x l (g' & Hg' & Hp & Ho)] using rev_ind; [by exists g|].
    rewrite fold_left_app. simpl. unfold set_instance_id at 1.
    destruct (map_get (ciArn x) _) as [gx|] eqn:Hgx; [|by exists g'].
    rewrite map_get_set. destruct (decide (ciArn x = ciArn ci)) as [Hx|Hx].
    - eexists. split; [done|]. simpl. rewrite Hx, Hg' in Hgx. by injection Hgx as <-.
    - by exists g'. }
  induction cis as [|x l IH] using rev_ind; [by apply elem_of_nil in Hin|].
  rewrite fold_left_app. simpl. unfold set_instance_id at 1.
  destruct (Hshape l) as (g' & Hg' & Hp & Ho).
  destruct (decide (ciArn x = ciArn ci)) as [Hx|Hx].
  - rewrite Hx, Hg', map_get_set_eq. f_equal. rewrite Hp, Ho. f_equal. f_equal.
    apply Hsame; [|done]. apply elem_of_app. right. by apply list_elem_of_singleton.
  - assert (map_get (ciArn ci) (fold_left set_instance_id l m)
            = Some {| ports := ports g; byHostPort := byHostPort g;
                      instanceId := Some (ec2InstanceId ci) |}) as Hl.
    { apply IH.
      - apply elem_of_app in Hin as [Hin| ->%list_elem_of_singleton]; done.
      - intros other Hother. apply Hsame. apply elem_of_app. by left. }
    destruct (map_get (ciArn x) _) as [gx|]; [|done].
    by rewrite map_get_set_ne.
Qed.

Lemma fold_set_instance_id_other cis m arn :
  arn ∉ ciArn <$> cis →
  map_get arn (fold_left set_instance_id cis m) = map_get arn m.
Proof.
  induction cis as [|x l IH] using rev_ind; [done|].
  rewrite fmap_app, not_elem_of_app. simpl. rewrite list_elem_of_singleton.
  intros [Hl Hx]. rewrite fold_left_app. simpl. unfold set_instance_id at 1.
  destruct (map_get (ciArn x) _) as [gx|]; [|by apply IH].
  rewrite map_get_set_ne by done. by apply IH.
Qed.

(** X9: the loop that attaches the EC2 instance ids.  It fails, with a
    [TypeError], exactly when the response describes a container instance
    that has no group.  Otherwise the groups keep their keys, their order
    and both maps; a described container instance gets the EC2 instance
    id of its description (of the last one, should they differ), and one
    that is not described keeps its group unchanged, without instance id
    if it had none. *)
Theorem set_instance_ids_cases cis m :
  (¬ Forall (λ ci, ciArn ci ∈ map_keys m) cis ↔
   set_instance_ids cis m = throw TypeError) ∧
  (Forall (λ ci, ciArn ci ∈ map_keys m) cis →
   ∃ m', set_instance_ids cis m = ok m' ∧
         map_keys m' = map_keys m ∧
         bindings_of m' = bindings_of m ∧
         (∀ ci g, ci ∈ cis →
            (∀ other, other ∈ cis → ciArn other = ciArn ci →
                      ec2InstanceId other = ec2InstanceId ci) →
            map_get (ciArn ci) m = Some g →
            map_get (ciArn ci) m'
            = Some {| ports := ports g; byHostPort := byHostPort g;
                      instanceId := Some (ec2InstanceId ci) |}) ∧
         (∀ arn, arn ∉ ciArn <$> cis → map_get arn m' = map_get arn m)).
Proof.
  assert (Decision (Forall (λ ci, ciArn ci ∈ map_keys m) cis)) as [Hall|Hnot]
    by apply _.
  - destruct (set_instance_ids_total _ _ Hall) as [m' Hm'].
    split; [split; [done|by rewrite Hm'] |]. intros _.
    exists m'. split; [done|].
    pose proof (set_instance_ids_bindings _ _ _ Hm') as Hb.
    apply set_instance_ids_fold in Hm' as ->.
    split; [|split; [done|split]].
    + clear. revert m. induction cis as [|ci cis IH]; intros m; [done|].
      simpl. by rewrite IH, set_instance_id_keys.
    + intros ci g. apply fold_set_instance_id_get.
    + intros arn. apply fold_set_instance_id_other.
  - split; [split; [by intros _; apply set_instance_ids_unknown|done]|done].
Qed.

Lemma set_instance_ids_cases_witness :
  set_instance_ids [ {| ciArn := "ci-9"; ec2InstanceId := "i-0009" |} ]
    [("ci-1"%string, new_group)] = throw TypeError ∧
  ∃ m', set_instance_ids [ {| ciArn := "ci-1"; ec2InstanceId := "i-0001" |} ]
          [("ci-1"%string, new_group)] = ok m' ∧
        map_keys m' = ["ci-1"%string].
Proof.
  split.
  - destruct (set_instance_ids_cases
                [ {| ciArn := "ci-9"; ec2InstanceId := "i-0009" |} ]
                [("ci-1"%string, new_group)]) as [[Hfail _] _].
    apply Hfail. intros Hall. apply Forall_cons in Hall as [Hin _].
    simpl in Hin. apply list_elem_of_singleton in Hin. discriminate.
  - destruct (set_instance_ids_cases
                [ {| ciArn := "ci-1"; ec2InstanceId := "i-0001" |} ]
                [("ci-1"%string, new_group)]) as [_ Hok].
    destruct Hok as (m' & Hm' & Hkeys & _).
    + constructor; [|constructor]. simpl. apply elem_of_cons. by left.
    + by exists m'.
Defined.

(** * Further properties of the addresses *)

Lemma fold_set_ipv6_get instances instanceIps instance :
  instance ∈ instances →
  (∀ other, other ∈ instances → InstanceId other = InstanceId instance →
            first_ipv6 other = first_ipv6 instance) →
  map_get (InstanceId instance) (fold_left set_ipv6 instances instanceIps)
  = Some (first_ipv6 instance).
Proof.
  induction instances as [|x l IH] using rev_ind; intros Hin Hsame.
  - by apply elem_of_nil in Hin.
  - rewrite fold_left_app. simpl. unfold set_ipv6 at 1. rewrite map_get_set.
    destruct (decide (InstanceId x = InstanceId instance)) as [Hid|Hid].
    + f_equal. apply Hsame; [|done]. apply elem_of_app. right.
      by apply list_elem_of_singleton.
    + apply elem_of_app in Hin as [Hin| ->%list_elem_of_singleton]; [|done].
      apply IH; [done|]. intros other Hother. apply Hsame. apply elem_of_app. by left.
Qed.

Lemma instances_loop_keys ipv6 instances instanceIps instanceIps' id :
  instances_loop ipv6 instances instanceIps = ok instanceIps' →
  id ∈ map_keys instanceIps' →
  id ∈ map_keys instanceIps ∨ id ∈ InstanceId <$> instances.
Proof.
  revert instanceIps. induction instances as [|i l IH]; intros ips; simpl.
  - intros [= <-]. by left.
  - destruct (instance_address ipv6 i) as [e|a]; [done|]. simpl.
    intros Hloop Hid. destruct (IH _ Hloop Hid) as [Hkey|Hl].
    + rewrite map_keys_set in Hkey. destruct (map_has (InstanceId i) ips).
      * by left.
      * apply elem_of_app in Hkey as [Hkey| ->%list_elem_of_singleton]; [by left|].
        right. csimpl. apply elem_of_cons. by left.
    + right. csimpl. apply elem_of_cons. by right.
Qed.

Lemma plan_lines_printed port instanceIps containerInstances l :
  l ∈ print_plan port instanceIps containerInstances →
  render l ∈ print_all port instanceIps containerInstances.
Proof.
  intros Hl. rewrite print_all_plan. apply list_elem_of_fmap. by exists l.
Qed.

(** X10: a group whose EC2 instance is not among the instances that
    [describeInstances] returns (or that has no instance id) has no
    address, in either address mode: its ssh line is printed with the
    text "undefined" after "ec2-user@". *)
Theorem undescribed_instance_undefined ipv6 reservations instanceIps v :
  reservations_loop ipv6 reservations [] = ok instanceIps →
  (∀ id, instanceId v = Some id → id ∉ InstanceId <$> (reservations ≫= Instances)) →
  ip_address instanceIps v = None ∧
  ∀ port containerInstances arn,
    (arn, v) ∈ containerInstances →
    ∃ port',
      "ssh" +:+ foldr String.append ""
                  (forward_string <$> forwards_from port' (ports v))
        +:+ " ec2-user@undefined"
      ∈ print_all port instanceIps containerInstances.
Proof.
  rewrite reservations_loop_flat. intros Hloop Hnot.
  assert (ip_address instanceIps v = None) as Hnone.
  { unfold ip_address. destruct (instanceId v) as [id|] eqn:Hid; [|done].
    destruct (map_get id instanceIps) as [a|] eqn:Ha; [|done].
    exfalso. apply (Hnot id eq_refl).
    destruct (instances_loop_keys _ _ _ _ id Hloop) as [Hk|Hk]; [|by apply elem_of_nil in Hk|done].
    apply map_get_is_Some. by eexists. }
  split; [done|]. intros port cis arn Hin.
  destruct (plan_group_line port instanceIps cis arn v Hin) as [port' Hline].
  exists port'. rewrite Hnone in Hline. by apply plan_lines_printed in Hline.
Qed.

Lemma undescribed_instance_undefined_witness :
  "ssh -L49152:localhost:32768 ec2-user@undefined"%string
  ∈ print_all 49152 [] Example.groups.
Proof.
  destruct (undescribed_instance_undefined true [] [] Example.group eq_refl)
    as [_ Hline].
  - intros id _. apply not_elem_of_nil.
  - destruct (Hline 49152 Example.groups "ci-1"%string) as [port' Hport'].
    + apply elem_of_cons. by left.
    + vm_compute. apply elem_of_cons. by left.
Defined.

(** X11: IPv6 mode, when every described instance has an IPv6 address on
    its first network interface: the run gets past the address loop, and
    the ssh line of a group is printed with the first IPv6 address of the
    first network interface of the instance of the group. *)
Theorem ipv6_address_printed cp serviceStackName serviceName clusterStackName
    containerPorts startingPort containerInstances reservations :
  resolve_groups cp serviceStackName serviceName clusterStackName containerPorts
  = ok containerInstances →
  describeInstances cp (instanceId <$> map_values containerInstances) = ok reservations →
  Forall (λ instance, is_Some (first_ipv6 instance)) (reservations ≫= Instances) →
  ∃ instanceIps,
    resolve cp serviceStackName serviceName clusterStackName containerPorts true
    = ok (containerInstances, instanceIps) ∧
    ssh_forwards cp serviceStackName serviceName clusterStackName containerPorts true
      startingPort
    = ok (print_all (start_port startingPort) instanceIps containerInstances) ∧
    ∀ arn v instance,
      (arn, v) ∈ containerInstances →
      instanceId v = Some (InstanceId instance) →
      instance ∈ reservations ≫= Instances →
      (∀ other, other ∈ reservations ≫= Instances →
                InstanceId other = InstanceId instance →
                first_ipv6 other = first_ipv6 instance) →
      ∃ address port',
        first_ipv6 instance = Some address ∧
        "ssh" +:+ foldr String.append ""
                    (forward_string <$> forwards_from port' (ports v))
          +:+ " ec2-user@" +:+ address
        ∈ print_all (start_port startingPort) instanceIps containerInstances.
Proof.
  intros Hg Hi Hall. eexists. split; [|split].
  - unfold resolve. rewrite Hg. simpl. rewrite Hi. simpl.
    rewrite (ipv6_addresses_recorded _ _ Hall). reflexivity.
  - unfold ssh_forwards, resolve. rewrite Hg. simpl. rewrite Hi. simpl.
    by rewrite (ipv6_addresses_recorded _ _ Hall).
  - intros arn v instance Hv Hid Hin Hsame.
    pose proof (proj1 (Forall_forall _ _) Hall _ Hin) as [address Haddr].
    destruct (plan_group_line (start_port startingPort)
                (fold_left set_ipv6 (reservations ≫= Instances) [])
                containerInstances arn v Hv) as [port' Hline].
    exists address, port'. split; [done|].
    unfold ip_address in Hline. rewrite Hid in Hline.
    rewrite (fold_set_ipv6_get _ _ _ Hin Hsame), Haddr in Hline.
    by apply plan_lines_printed in Hline.
Qed.

(** X12: IPv6 mode, when every described instance has a network interface
    and one of them, whether a group refers to it or not, has no IPv6
    address on its first interface: the run fails with "No IPv6 address"
    and prints nothing. *)
Theorem ipv6_run_fails_without_address cp serviceStackName serviceName clusterStackName
    containerPorts startingPort containerInstances reservations :
  resolve_groups cp serviceStackName serviceName clusterStackName containerPorts
  = ok containerInstances →
  describeInstances cp (instanceId <$> map_values containerInstances) = ok reservations →
  Forall (λ instance, NetworkInterfaces instance ≠ []) (reservations ≫= Instances) →
  Exists (λ instance, first_ipv6 instance = None) (reservations ≫= Instances) →
  ssh_forwards cp serviceStackName serviceName clusterStackName containerPorts true
    startingPort = throw NoAddress ∧
  ssh_forwards_index cp serviceStackName serviceName clusterStackName containerPorts true
  = throw NoAddress.
Proof.
  intros Hg Hi Hnics Hmiss.
  unfold ssh_forwards, ssh_forwards_index, resolve. rewrite Hg. simpl. rewrite Hi. simpl.
  by rewrite (ipv6_missing_address_fails _ _ Hnics Hmiss).
Qed.

Lemma ipv6_address_printed_witness :
  ∃ instanceIps,
    resolve (Example.world [Example.webTask] Ipv6.withAddress)
      "svc-A" None None None true
    = ok (Example.groups, instanceIps) ∧
    ∃ port',
      "ssh" +:+ foldr String.append ""
                  (forward_string <$> forwards_from port' (ports Example.group))
        +:+ " ec2-user@" +:+ "2001:db8::1"
      ∈ print_all 49152 instanceIps Example.groups.
Proof.
  destruct (ipv6_address_printed
              (Example.world [Example.webTask] Ipv6.withAddress)
              "svc-A" None None None None Example.groups
              [ {| Instances := [Ipv6.withAddress] |} ] eq_refl eq_refl)
    as (ips & Hres & _ & Hline).
  { constructor; [|constructor]. by eexists. }
  exists ips. split; [exact Hres|].
  destruct (Hline "ci-1"%string Example.group Ipv6.withAddress)
    as (address & port' & Haddr & Hprinted).
  - apply elem_of_cons. by left.
  - reflexivity.
  - apply elem_of_cons. by left.
  - intros other Hother _. apply list_elem_of_singleton in Hother. by subst.
  - injection Haddr as <-. by exists port'.
Defined.

Lemma ipv6_run_fails_without_address_witness :
  ssh_forwards (Example.world [Example.webTask] Ipv6.withoutAddress)
    "svc-A" None None None true None = throw NoAddress.
Proof.
  destruct (ipv6_run_fails_without_address
              (Example.world [Example.webTask] Ipv6.withoutAddress)
              "svc-A" None None None None Example.groups
              [ {| Instances := [Ipv6.withoutAddress] |} ] eq_refl eq_refl)
    as [Hfail _].
  - constructor; [discriminate|constructor].
  - constructor. reflexivity.
  - exact Hfail.
Defined.

(** * Further properties of the output *)

(** X13: the output is built group by group.  A group prints its ssh
    line, with one clause per entry of [ports], numbered by the port
    counter from its current value on, then one legend line per entry of
    [byHostPort]; the groups that follow are printed after it, with the
    counter advanced once for every clause printed so far.  While the
    counter stays between -2^53 and 2^53, clause [i] of a line has the
    local port [port + i] and [n] clauses advance the counter by [n]; at
    2^53 the increment of the double leaves the counter where it is. *)
Theorem print_all_by_group port instanceIps :
  print_all port instanceIps [] = [] ∧
  (∀ entry,
     print_all port instanceIps [entry]
     = ("ssh" +:+ foldr String.append ""
                    (forward_string <$> forwards_from port (ports entry.2))
          +:+ " ec2-user@" +:+ js_string (ip_address instanceIps entry.2))
       :: (legend_line <$> byHostPort entry.2)) ∧
  (∀ groups1 groups2,
     print_all port instanceIps (groups1 ++ groups2)
     = print_all port instanceIps groups1
       ++ print_all (advance (length (groups1 ≫= λ e, ports e.2)) port)
            instanceIps groups2) ∧
  (∀ ps i f, forwards_from port ps !! i = Some f → localPort f = advance i port) ∧
  (∀ n, - safe_limit ≤ port → port + Z.of_nat n ≤ safe_limit →
        advance n port = port + Z.of_nat n) ∧
  (∀ n, advance n safe_limit = safe_limit).
Proof.
  split; [done|]. split; [|split; [|split; [|split]]].
  - intros entry. rewrite print_all_plan. csimpl.
    by rewrite app_nil_r, <-list_fmap_compose.
  - intros groups1 groups2. unfold print_all.
    by rewrite fold_left_app, !print_groups.
  - intros ps i f. apply forwards_from_lookup.
  - intros n. apply advance_safe.
  - intros n. unfold advance. induction n as [|n IH]; [done|]. simpl. by rewrite IH.
Qed.

Lemma print_all_by_group_witness :
  advance 2 49152 = 49154 ∧
  ∀ f, forwards_from 49152 [(80, 32768); (443, 32769)] !! 1%nat = Some f →
       localPort f = 49153.
Proof.
  destruct (print_all_by_group 49152 []) as (_ & _ & _ & Hclause & Hsafe & _).
  split.
  - apply (Hsafe 2%nat); vm_compute; discriminate.
  - intros f Hf. rewrite (Hclause _ _ _ Hf).
    apply (Hsafe 1%nat); vm_compute; discriminate.
Defined.

Lemma length_print_plan port instanceIps containerInstances :
  length (print_plan port instanceIps containerInstances)
  = (length containerInstances
     + length (containerInstances ≫= λ e, byHostPort e.2))%nat.
Proof.
  revert port. induction containerInstances as [|e cis IH]; intros port; [done|].
  csimpl. rewrite !length_app, length_fmap, IH. lia.
Qed.

Lemma plan_forwards_remote port instanceIps containerInstances :
  remotePort <$> plan_forwards (print_plan port instanceIps containerInstances)
  = containerInstances ≫= λ e, map_values (ports e.2).
Proof.
  revert port. induction containerInstances as [|e cis IH]; intros port; [done|].
  rewrite plan_forwards_cons, fmap_app, IH. csimpl. f_equal.
  unfold map_values. generalize (ports e.2). clear. intros ps. revert port.
  induction ps as [|p ps IH]; intros port; [done|]. csimpl. by rewrite IH.
Qed.

(** X14: a run that reaches its output prints one line per container
    instance and one per entry of its [byHostPort] maps; the [-L]
    clauses, over all ssh lines in print order, forward to the values of
    the [ports] maps in the order of their entries, one clause per
    entry. *)
Theorem output_counts cp serviceStackName serviceName clusterStackName containerPorts
    ipv6 startingPort containerInstances instanceIps :
  resolve cp serviceStackName serviceName clusterStackName containerPorts ipv6
  = ok (containerInstances, instanceIps) →
  ∃ out,
    ssh_forwards cp serviceStackName serviceName clusterStackName containerPorts ipv6
      startingPort = ok out ∧
    out = render <$> print_plan (start_port startingPort) instanceIps containerInstances ∧
    length out = (length containerInstances
                  + length (containerInstances ≫= λ e, byHostPort e.2))%nat ∧
    remotePort <$> plan_forwards
                     (print_plan (start_port startingPort) instanceIps containerInstances)
    = containerInstances ≫= λ e, map_values (ports e.2).
Proof.
  intros Hres. eexists. split; [|split; [|split]].
  - unfold ssh_forwards. rewrite Hres. reflexivity.
  - simpl. apply print_all_plan.
  - simpl. by rewrite print_all_plan, length_fmap, length_print_plan.
  - apply plan_forwards_remote.
Qed.

Lemma output_counts_witness :
  ∃ out,
    ssh_forwards (Example.world Collision.threeTasks
                    (Example.instance1 (Some "1.2.3.4"%string) []))
      "svc-A" None None None false None = ok out ∧
    length out = 5%nat.
Proof.
  destruct (output_counts
              (Example.world Collision.threeTasks
                 (Example.instance1 (Some "1.2.3.4"%string) []))
              "svc-A" None None None false None
              [("ci-1"%string,
                {| ports := [(80, 32768); (443, 32769)];
                   byHostPort :=
                     [(32768, {| containerName := "web"; ownerContainerPort := 80 |});
                      (32769, {| containerName := "web"; ownerContainerPort := 443 |})];
                   instanceId := Some "i-0001"%string |});
               ("ci-2"%string,
                {| ports := [(80, 32770)];
                   byHostPort :=
                     [(32770, {| containerName := "web"; ownerContainerPort := 80 |})];
                   instanceId := Some "i-0001"%string |})]
              [("i-0001"%string, Some "1.2.3.4"%string)] eq_refl)
    as (out & Hout & _ & Hlen & _).
  exists out. split; [exact Hout|exact Hlen].
Defined.

(** * The errors of a run *)

Lemma first_service_error rs e : first_service rs = throw e → e = ServiceNotFound.
Proof.
  induction rs as [|r rs IH]; simpl.
  - by intros [= <-].
  - destruct (String.eqb _ _); [done|apply IH].
Qed.

Lemma getServiceName_error cp serviceStackName serviceName e :
  answers cp →
  getServiceName cp serviceStackName serviceName = throw e → e = ServiceNotFound.
Proof.
  intros Hcp. unfold getServiceName.
  destruct (answers_resources cp Hcp serviceStackName
              (logicalResourceIdParam serviceName)) as [rs ->].
  simpl. unfold serviceNameOf. destruct (truthy serviceName); simpl.
  - destruct rs; [by intros [= <-]|done].
  - apply first_service_error.
Qed.

Lemma getClusterName_error cp n e :
  answers cp → getClusterName cp n = throw e → e = ClusterStackNotFound.
Proof.
  intros Hcp. unfold getClusterName.
  destruct (answers_resources cp Hcp n (Some "cluster"%string)) as [rs ->].
  simpl. destruct rs; [by intros [= <-]|done].
Qed.

Lemma resolve_cluster_error cp serviceStackName clusterStackName e :
  answers cp →
  resolve_cluster cp serviceStackName clusterStackName = throw e →
  e = StackNotFound ∨ e = ConfigMissing ∨ e = ClusterStackNotFound.
Proof.
  intros Hcp. unfold resolve_cluster. destruct (truthy clusterStackName).
  - intros He%getClusterName_error; auto.
  - unfold getClusterStackName.
    destruct (answers_stacks cp Hcp serviceStackName) as [stacks ->]. simpl.
    destruct stacks as [|stack rest]; simpl; [intros [= <-]; auto|].
    destruct (truthy (clusterStackParam (Parameters stack))); simpl.
    + intros He%getClusterName_error; auto.
    + intros [= <-]. auto.
Qed.

Lemma set_instance_ids_error cis m e :
  set_instance_ids cis m = throw e → e = TypeError.
Proof.
  revert m. induction cis as [|ci cis IH]; intros m; simpl; [done|].
  destruct (map_get (ciArn ci) m); [apply IH|by intros [= <-]].
Qed.

Lemma aggregate_error containerPorts tasks e :
  aggregate containerPorts tasks = throw e → e = TypeError.
Proof.
  assert (Decision (overrides_cover tasks)) as [Hcover|Hshort]
    by (unfold overrides_cover; apply _).
  - destruct (aggregate_total containerPorts tasks Hcover) as [m ->]. done.
  - unfold aggregate. rewrite (tasks_loop_short _ _ _ Hshort). by intros [= <-].
Qed.

Lemma instances_loop_error ipv6 instances instanceIps e :
  instances_loop ipv6 instances instanceIps = throw e →
  ipv6 = true ∧ (e = TypeError ∨ e = NoAddress).
Proof.
  destruct ipv6; [|by rewrite instances_loop_ipv4].
  revert instanceIps. induction instances as [|i l IH]; intros ips; [done|].
  cbn [instances_loop]. rewrite instance_address_ipv6.
  destruct (NetworkInterfaces i) as [|i0 ?]; [intros [= <-]; auto|].
  destruct (Ipv6Addresses i0) as [[|a ?]|]; simpl; [intros [= <-]; auto|apply IH|].
  intros [= <-]. auto.
Qed.

Lemma resolve_error cp serviceStackName serviceName clusterStackName containerPorts
    ipv6 e :
  answers cp →
  resolve cp serviceStackName serviceName clusterStackName containerPorts ipv6
  = throw e →
  own_error e ∧ (ipv6 = false → e ≠ NoAddress).
Proof.
  intros Hcp. unfold resolve, resolve_groups, own_error.
  destruct (getServiceName cp serviceStackName serviceName) as [es|service] eqn:Hs;
    destruct (resolve_cluster cp serviceStackName clusterStackName) as [ec|cluster]
      eqn:Hc; simpl.
  - apply (getServiceName_error _ _ _ _ Hcp) in Hs as ->.
    apply (resolve_cluster_error _ _ _ _ Hcp) in Hc.
    destruct (serviceSettlesFirst cp); intros [= <-]; [by auto|].
    destruct Hc as [->| [->| ->]]; by auto 7.
  - apply (getServiceName_error _ _ _ _ Hcp) in Hs as ->. intros [= <-]. by auto.
  - apply (resolve_cluster_error _ _ _ _ Hcp) in Hc. intros [= <-].
    destruct Hc as [->| [->| ->]]; by auto 7.
  - destruct (answers_listTasks cp Hcp service cluster) as [taskList ->]. simpl.
    destruct (answers_tasks cp Hcp cluster taskList) as [tasks ->]. simpl.
    destruct (aggregate containerPorts tasks) as [ea|agg] eqn:Ha; simpl.
    { apply aggregate_error in Ha as ->. intros [= <-]. by auto 7. }
    destruct (answers_containerInstances cp Hcp (map_keys agg) cluster) as [data ->].
    simpl.
    destruct (set_instance_ids data agg) as [ei|cis] eqn:Hi; simpl.
    { apply set_instance_ids_error in Hi as ->. intros [= <-]. by auto 7. }
    destruct (answers_instances cp Hcp (instanceId <$> map_values cis)) as [rs ->].
    simpl. rewrite reservations_loop_flat.
    destruct (instances_loop ipv6 (rs ≫= Instances) []) as [el|ips] eqn:Hl; [|done].
    simpl. apply instances_loop_error in Hl as [-> [->| ->]]; intros [= <-].
    + split; [auto 7|done].
    + split; [auto 7|done].
Qed.

(** X15: the errors of a run.  When every query of the control plane
    answers with data, a run that fails fails with one of the five
    errors the program throws or with a [TypeError]; and in IPv4 mode it
    never fails with "No IPv6 address".  This holds of both exported
    functions. *)
Theorem run_errors cp serviceStackName serviceName clusterStackName containerPorts
    ipv6 startingPort e :
  answers cp →
  ssh_forwards cp serviceStackName serviceName clusterStackName containerPorts ipv6
    startingPort = throw e ∨
  ssh_forwards_index cp serviceStackName serviceName clusterStackName containerPorts ipv6
  = throw e →
  own_error e ∧ (ipv6 = false → e ≠ NoAddress).
Proof.
  intros Hcp. unfold ssh_forwards, ssh_forwards_index.
  destruct (resolve cp serviceStackName serviceName clusterStackName containerPorts ipv6)
    as [e'|r] eqn:Hres; simpl.
  - intros [[= <-]|[= <-]]; by eapply resolve_error.
  - by intros [|].
Qed.

Lemma run_errors_witness :
  ssh_forwards EmptyParameter.world "svc-A" (Some "web"%string) None None false None
  = throw ServiceNotFound ∧
  own_error ServiceNotFound.
Proof.
  split; [reflexivity|].
  eapply (run_errors EmptyParameter.world "svc-A" (Some "web"%string) None None false None).
  - split; intros; by eexists.
  - left. reflexivity.
Defined.

(** * The option parser of [cli.js] *)

Lemma split_commas_cons val : ∃ piece pieces, split_commas val = piece :: pieces.
Proof.
  induction val as [|c rest (piece & pieces & IH)]; simpl; [by eexists _, _|].
  destruct (Ascii.eqb c ","); [by eexists _, _|]. rewrite IH. by eexists _, _.
Qed.

Lemma split_commas_piece piece :
  comma_free piece = true → split_commas piece = [piece].
Proof.
  induction piece as [|c rest IH]; simpl; [done|].
  destruct (Ascii.eqb c ","); simpl; [done|]. intros Hrest. by rewrite IH.
Qed.

Lemma split_commas_append piece rest :
  comma_free piece = true →
  split_commas (piece +:+ "," +:+ rest) = piece :: split_commas rest.
Proof.
  induction piece as [|c piece IH]; [done|].
  change (String c piece +:+ "," +:+ rest) with (String c (piece +:+ "," +:+ rest)).
  cbn [comma_free split_commas]. destruct (Ascii.eqb c ","); simpl; [done|].
  intros Hpiece. by rewrite IH.
Qed.

(** X16: [split] and [join] on commas.  The pieces of a string have no
    comma and joined by commas give the string back; and a non-empty
    list of strings without comma, joined by commas, splits into that
    list.  The empty string splits into one empty piece. *)
Theorem split_commas_join :
  (∀ val, Forall (λ piece, comma_free piece = true) (split_commas val) ∧
          String.concat "," (split_commas val) = val) ∧
  (∀ piece pieces,
     Forall (λ p, comma_free p = true) (piece :: pieces) →
     split_commas (String.concat "," (piece :: pieces)) = piece :: pieces) ∧
  split_commas "" = [""%string].
Proof.
  split; [|split; [|done]].
  - induction val as [|c rest [IHfree IHjoin]]; [by repeat constructor|].
    cbn [split_commas]. destruct (split_commas_cons rest) as (piece & pieces & Hrest).
    rewrite Hrest in *. destruct (Ascii.eqb_spec c ",") as [->|Hc].
    + split; [by constructor|].
      change (String "," (String.concat "," (piece :: pieces)) = String "," rest).
      by rewrite IHjoin.
    + apply Forall_cons in IHfree as [Hpiece Hpieces]. split.
      * constructor; [|done]. simpl. rewrite Hpiece.
        by apply Ascii.eqb_neq in Hc as ->.
      * rewrite <-IHjoin. by destruct pieces.
  - intros piece pieces. revert piece.
    induction pieces as [|p ps IH]; intros piece [Hpiece Hrest]%Forall_cons.
    + by apply split_commas_piece.
    + change (String.concat "," (piece :: p :: ps))
        with (piece +:+ "," +:+ String.concat "," (p :: ps)).
      rewrite split_commas_append by done. f_equal. by apply IH.
Qed.

Section ContainerPortsOptionFacts.
Context {Num : Type} `{Countable Num}.
Variable Number : string → Num.

Lemma fold_add_numbers pieces (s : gset Num) x :
  x ∈ fold_left (λ s piece, s ∪ {[ Number piece ]}) pieces s
  ↔ x ∈ s ∨ ∃ piece, piece ∈ pieces ∧ Number piece = x.
Proof.
  revert s. induction pieces as [|p ps IH]; intros s; simpl.
  - split; [by left|]. intros [Hs|(piece & Hin & _)]; [done|].
    by apply elem_of_nil in Hin.
  - rewrite IH, elem_of_union, elem_of_singleton. split.
    + intros [[Hs| ->]|(piece & Hin & Hx)].
      * by left.
      * right. exists p. split; [|done]. apply elem_of_cons. by left.
      * right. exists piece. split; [|done]. apply elem_of_cons. by right.
    + intros [Hs|(piece & Hin & Hx)]; [by left; left|].
      apply elem_of_cons in Hin as [->|Hin]; [by left; right|].
      right. by exists piece.
Qed.

(** X17: the [Set] that [--container-ports] gives holds the numbers of
    the comma-separated pieces of the value and nothing else, and it is
    never empty: the number of the first piece (of the whole value, when
    it has no comma; of the empty string, for an empty value) is in it. *)
Theorem containerPortsOption_members val :
  (∀ x, x ∈ containerPortsOption Number val
        ↔ ∃ piece, piece ∈ split_commas val ∧ Number piece = x) ∧
  containerPortsOption Number val ≠ ∅ ∧
  (comma_free val = true → containerPortsOption Number val = {[ Number val ]}).
Proof.
  assert (∀ x, x ∈ containerPortsOption Number val
               ↔ ∃ piece, piece ∈ split_commas val ∧ Number piece = x) as Hmem.
  { intros x. unfold containerPortsOption. rewrite fold_add_numbers.
    split; [|by right]. intros [Hempty|Hpiece]; [|done].
    by apply not_elem_of_empty in Hempty. }
  split; [done|]. split.
  - destruct (split_commas_cons val) as (piece & pieces & Hsplit).
    intros Hempty.
    assert (Number piece ∈ containerPortsOption Number val) as Hin.
    { apply Hmem. exists piece. split; [|done]. rewrite Hsplit.
      apply elem_of_cons. by left. }
    rewrite Hempty in Hin. by apply not_elem_of_empty in Hin.
  - intros Hfree. apply set_eq. intros x.
    rewrite Hmem, (split_commas_piece _ Hfree), elem_of_singleton. split.
    + by intros (piece & ->%list_elem_of_singleton & <-).
    + intros ->. exists val. split; [|done]. by apply list_elem_of_singleton.
Qed.
End ContainerPortsOptionFacts.

Lemma containerPortsOption_members_witness :
  containerPortsOption decimal_number "443" = {[ Some 443 ]}.
Proof.
  destruct (containerPortsOption_members decimal_number "443") as (_ & _ & Hone).
  exact (Hone eq_refl).
Defined.

Lemma split_commas_join_witness :
  split_commas "80,443" = ["80"%string; "443"%string].
Proof.
  destruct split_commas_join as (_ & Hsplit & _).
  exact (Hsplit "80"%string ["443"%string] ltac:(repeat constructor)).
Defined.

(** * No empty group in the output *)

Lemma bindings_of_elem m arn v :
  (arn, v) ∈ m → (arn, ports v, byHostPort v) ∈ bindings_of m.
Proof.
  intros Hin. unfold bindings_of. apply list_elem_of_fmap. by exists (arn, v).
Qed.

(** X18: in a run that resolves its groups, every group has an entry in
    [ports] and in [byHostPort]: every ssh line that is printed has at
    least one [-L] clause and is followed by at least one legend line. *)
Theorem printed_groups_nonempty cp serviceStackName serviceName clusterStackName
    containerPorts containerInstances :
  resolve_groups cp serviceStackName serviceName clusterStackName containerPorts
  = ok containerInstances →
  ∀ arn v, (arn, v) ∈ containerInstances →
    ports v ≠ [] ∧ byHostPort v ≠ [] ∧
    ∀ port, forwards_from port (ports v) ≠ [].
Proof.
  intros (cluster & taskList & tasks & agg & _ & Hagg & Hb)%resolve_groups_bindings
    arn v Hin.
  apply bindings_of_elem in Hin. rewrite Hb in Hin.
  apply list_elem_of_fmap in Hin as ([arn' g] & [= -> Hp Ho] & Hg).
  destruct (aggregate_inv _ _ _ Hagg) as [Hkeys _ _ _ _].
  apply (elem_of_map_get _ _ _ Hkeys) in Hg.
  destruct (aggregate_groups_nonempty _ _ _ _ _ Hagg Hg) as [Hports Howner].
  simpl in *. rewrite Hp, Ho. split; [done|]. split; [done|].
  intros port. by destruct (ports g).
Qed.

Lemma printed_groups_nonempty_witness :
  ports Example.group ≠ [] ∧ byHostPort Example.group ≠ [].
Proof.
  destruct (printed_groups_nonempty Example.exampleWorld "svc-A" None None None
              Example.groups eq_refl "ci-1"%string Example.group) as (Hp & Ho & _).
  - apply elem_of_cons. by left.
  - by split.
Defined.
